(** * multi-llm: the request-execution engine

    A shallow embedding of the retry engine ([src/utils/retry.ts]), the
    response parser ([src/utils/parser.ts]), the dispatcher ([src/llm.ts])
    and the stream handlers of the Anthropic, Ollama and HuggingFace
    providers, with the properties of the design document proved (or
    refuted) on the embedding.

    Conventions.
    - A JavaScript string is a [string]: a sequence of code units, here the
      code units below 256.
    - A counter ([attempt], [retries]) is a [Z]; a duration or a multiplier
      is a JavaScript number whose arithmetic ([*], [Math.pow]) belongs to
      the runtime, a parameter of the model, so that nothing depends on how
      doubles round.
    - A [while] loop is a [Fixpoint] on a fuel argument and returns [None]
      when the fuel runs out; each loop comes with a lemma giving a fuel
      that is enough.
    - A callback (the stream sink) returns and does not throw; its calls
      are recorded in order. *)

From Stdlib Require Import ZArith QArith List String Ascii Bool Lia DecimalString.
Import ListNotations.

#[local] Set Warnings "-register-all".
#[local] Open Scope string_scope.
#[local] Open Scope Z_scope.

(** * Part I: the program *)

(** ** The runtime *)

(** JavaScript numbers with the operations the engine applies to them, and
    the process environment. *)
Class Runtime := {
  number : Type;
  number_of_Z : Z -> number;
  number_mul : number -> number -> number;
  Math_pow : number -> number -> number;
  number_to_string : number -> string;
  NODE_ENV : option string
}.

(** Template literals render an integer in decimal. *)
Definition string_of_Z (z : Z) : string := NilZero.string_of_int (Z.to_int z).

(** Truthiness of an optional string: [undefined] and [''] are falsy. *)
Definition truthy_string (o : option string) : bool :=
  match o with
  | None => false
  | Some s => negb (s =? "")%string
  end.

(** [a ?? b] *)
Definition nullish {A : Type} (a : option A) (b : A) : A :=
  match a with Some x => x | None => b end.

(** ** The retry engine, [src/utils/retry.ts] *)

Record JsError := mkError { message : string }.

(** What a call of an asynchronous function settles to.  [Thrown None] is
    [throw undefined]: line 62 throws [lastError], which is unassigned when
    the loop body never ran. *)
Inductive Settled (T : Type) :=
| Returned (v : T)
| Thrown (e : option JsError).
Arguments Returned {T} v.
Arguments Thrown {T} e.

Record RetryConfig `{Runtime} := mkConfig {
  retries : Z;
  retryInterval : number;
  retryBackoff : number
}.

Record RetryOptions `{Runtime} := mkOptions {
  opt_retries : option Z;
  opt_retryInterval : option number;
  opt_retryBackoff : option number
}.

Definition DEFAULT_RETRY_CONFIG `{Runtime} : RetryConfig :=
  {| retries := 1;
     retryInterval := number_of_Z 1000;
     retryBackoff := number_of_Z 2 |}.

Definition getRetryConfig `{Runtime} (options : RetryOptions) : RetryConfig :=
  {| retries := nullish (opt_retries options) (retries DEFAULT_RETRY_CONFIG);
     retryInterval :=
       nullish (opt_retryInterval options) (retryInterval DEFAULT_RETRY_CONFIG);
     retryBackoff :=
       nullish (opt_retryBackoff options) (retryBackoff DEFAULT_RETRY_CONFIG) |}.

(** The operation is a closure over mutable state: a call takes the state
    of the world to a result (a thrown error or a value) and a new state. *)
Definition Operation (World T : Type) : Type := World -> (JsError + T) * World.

(** What the engine does besides computing, in order. *)
Inductive Event `{Runtime} :=
| Call                    (* [await operation()] *)
| Warn (msg : string)     (* [console.warn] *)
| Sleep (ms : number).    (* [await sleep(delay)] *)

Definition Run `{Runtime} (World T : Type) : Type :=
  (Settled T * World * list Event)%type.

Definition emit `{Runtime} {World T : Type} (evs : list Event)
           (r : option (Run World T)) : option (Run World T) :=
  match r with
  | Some (out, w, tr) => Some (out, w, (evs ++ tr)%list)
  | None => None
  end.

Definition maxAttempts `{Runtime} (config : RetryConfig) : Z := retries config + 1.

Definition contextMsg (context : option string) : string :=
  if truthy_string context then " (" ++ nullish context "" ++ ")" else "".

Definition exhausted `{Runtime} (config : RetryConfig) (context : option string)
           (lastError : JsError) : JsError :=
  mkError ("Failed after " ++ string_of_Z (retries config) ++ " retries"
           ++ contextMsg context ++ ": " ++ message lastError).

Definition backoff_delay `{Runtime} (config : RetryConfig) (attempt : Z) : number :=
  number_mul (retryInterval config)
             (Math_pow (retryBackoff config) (number_of_Z (attempt - 1))).

(** [process.env.NODE_ENV !== 'test'] *)
Definition not_under_test `{Runtime} : bool :=
  match NODE_ENV with
  | Some v => negb (v =? "test")%string
  | None => true
  end.

Definition warning `{Runtime} (config : RetryConfig) (context : option string)
           (attempt : Z) (delay : number) (lastError : JsError) : list Event :=
  if not_under_test then
    [Warn ("Retry " ++ string_of_Z attempt ++ "/" ++ string_of_Z (retries config)
           ++ " after " ++ number_to_string delay ++ "ms"
           ++ contextMsg context ++ ": " ++ message lastError)]
  else [].

(** The [while (attempt < maxAttempts)] loop, one iteration per unit of
    fuel. *)
Fixpoint retry_loop `{Runtime} {World T : Type} (operation : Operation World T)
         (config : RetryConfig) (context : option string)
         (fuel : nat) (attempt : Z) (lastError : option JsError) (w : World)
  : option (Run World T) :=
  match fuel with
  | O => None
  | S fuel' =>
      if attempt <? maxAttempts config then
        match operation w with
        | (inr v, w') => Some (Returned v, w', [Call])
        | (inl error, w') =>
            let lastError := error in
            let attempt := attempt + 1 in
            if attempt >=? maxAttempts config then
              Some (Thrown (Some (exhausted config context lastError)), w', [Call])
            else
              let delay := backoff_delay config attempt in
              emit (Call :: warning config context attempt delay lastError
                      ++ [Sleep delay])%list
                   (retry_loop operation config context fuel' attempt
                               (Some lastError) w')
        end
      else Some (Thrown lastError, w, [])
  end.

Definition executeWithRetry `{Runtime} {World T : Type}
           (operation : Operation World T) (config : RetryConfig)
           (context : option string) (w : World) : option (Run World T) :=
  retry_loop operation config context (S (Z.to_nat (maxAttempts config))) 0 None w.

(** *** Observations on a run *)

Definition attempts `{Runtime} (tr : list Event) : nat :=
  List.length (filter (fun e => match e with Call => true | _ => false end) tr).

Definition quiet `{Runtime} (tr : list Event) : list Event :=
  filter (fun e => match e with Warn _ => false | _ => true end) tr.

(** The state of the world after [n] calls of the operation, and the result
    of the call that follows them. *)
Fixpoint world_after {World T : Type} (operation : Operation World T)
         (n : nat) (w : World) : World :=
  match n with
  | O => w
  | S n' => world_after operation n' (snd (operation w))
  end.

Definition result_of_call {World T : Type} (operation : Operation World T)
           (n : nat) (w : World) : JsError + T :=
  fst (operation (world_after operation n w)).

Definition fails {T : Type} (r : JsError + T) : Prop :=
  match r with inl _ => True | inr _ => False end.

(** The delay the design prescribes before attempt [i], for [i >= 2], and
    the run of [n] attempts it describes. *)
Definition delay_before `{Runtime} (config : RetryConfig) (i : nat) : number :=
  number_mul (retryInterval config)
             (Math_pow (retryBackoff config) (number_of_Z (Z.of_nat i - 2))).

Definition schedule `{Runtime} (config : RetryConfig) (n : nat) : list Event :=
  match n with
  | O => []
  | S m => Call :: flat_map (fun i => [Sleep (delay_before config i); Call]) (seq 2 m)
  end.

(** *** The specification of a run *)

Section RunSpecification.

Context `{Runtime} {World T : Type}.
Variable operation : Operation World T.
Variable config : RetryConfig.
Variable context : option string.

(** The run of [n] attempts that starts when [a] attempts were made. *)
Definition schedule_from (a n : nat) : list Event :=
  match n with
  | O => []
  | S m => Call :: flat_map (fun i => [Sleep (delay_before config i); Call])
                            (seq (a + 2) m)
  end.

(** How a run of the loop that starts with [attempt = a] ends. *)
Inductive Ending (a : nat) (lastError : option JsError) (w : World)
  : nat -> Settled T -> Prop :=
| ending_skipped :
    maxAttempts config <= Z.of_nat a ->
    Ending a lastError w 0 (Thrown lastError)
| ending_success n v :
    result_of_call operation n w = inr v ->
    Z.of_nat a + Z.of_nat (S n) <= maxAttempts config ->
    Ending a lastError w (S n) (Returned v)
| ending_exhausted n e :
    result_of_call operation n w = inl e ->
    Z.of_nat a + Z.of_nat (S n) = maxAttempts config ->
    Ending a lastError w (S n) (Thrown (Some (exhausted config context e))).

Record RunSpec (a : nat) (lastError : option JsError) (w : World)
       (r : Run World T) : Prop := {
  run_shape : quiet (snd r) = schedule_from a (attempts (snd r));
  run_world : snd (fst r) = world_after operation (attempts (snd r)) w;
  run_failures : forall i, (S i < attempts (snd r))%nat ->
                           fails (result_of_call operation i w);
  run_ending : Ending a lastError w (attempts (snd r)) (fst (fst r))
}.

End RunSpecification.

(** *** Test operations, from [tests/retry.test.ts] *)

(** A runtime whose numbers are the integers. *)
Definition integer_runtime (env : option string) : Runtime :=
  {| number := Z;
     number_of_Z := fun z => z;
     number_mul := Z.mul;
     Math_pow := Z.pow;
     number_to_string := string_of_Z;
     NODE_ENV := env |}.

Definition policy (env : option string) (n interval backoff : Z)
  : @RetryConfig (integer_runtime env) :=
  @mkConfig (integer_runtime env) n interval backoff.

Definition sleep (env : option string) (ms : Z) : @Event (integer_runtime env) :=
  @Sleep (integer_runtime env) ms.

(** [attempts++; if (attempts < n) throw new Error(msg); return v], the
    world being the counter [attempts]. *)
Definition fails_until (n : nat) (msg v : string) : Operation nat string :=
  fun attempts =>
    let attempts := S attempts in
    if (attempts <? n)%nat then (inl (mkError msg), attempts)
    else (inr v, attempts).

(** [attempts++; throw new Error(msg)] *)
Definition always_fails (msg : string) : Operation nat string :=
  fun attempts => (inl (mkError msg), S attempts).

(** ** Regular expressions *)

(** The regular expressions of the parser are sequences of literals and of
    starred character classes, greedy ([\w*]) or lazy ([[\s\S]*?]).  Every
    starred class of the patterns that capture is one capture group, so the
    groups of a match are the texts of its stars, in order. *)
Inductive item :=
| Lit (l : string)
| Greedy (cls : ascii -> bool)
| Lazy (cls : ascii -> bool).

Definition regex := list item.

Record Match := mkMatch {
  matched : string;        (* [match[0]] *)
  groups : list string;    (* [match[1]], [match[2]], ... *)
  rest : string            (* the input after the match *)
}.

(** [match[i]] for [i >= 1] *)
Definition group (i : nat) (m : Match) : string := nth (i - 1) (groups m) "".

Fixpoint strip_prefix (l s : string) : option string :=
  match l, s with
  | EmptyString, _ => Some s
  | String a l', String b s' => if Ascii.eqb a b then strip_prefix l' s' else None
  | String _ _, EmptyString => None
  end.

(** Backtracking: a greedy star tries the longest run first and gives
    characters back while what follows, [k], fails; a lazy star tries the
    shortest run first and takes characters while [k] fails. *)
Fixpoint greedy_star (cls : ascii -> bool) (k : string -> option Match)
         (s : string) : option (string * Match) :=
  let stop := option_map (pair EmptyString) (k s) in
  match s with
  | String c s' =>
      if cls c then
        match greedy_star cls k s' with
        | Some (cap, m) => Some (String c cap, m)
        | None => stop
        end
      else stop
  | EmptyString => stop
  end.

Fixpoint lazy_star (cls : ascii -> bool) (k : string -> option Match)
         (s : string) : option (string * Match) :=
  match k s with
  | Some m => Some (EmptyString, m)
  | None =>
      match s with
      | String c s' =>
          if cls c then
            match lazy_star cls k s' with
            | Some (cap, m) => Some (String c cap, m)
            | None => None
            end
          else None
      | EmptyString => None
      end
  end.

Definition starred (r : option (string * Match)) : option Match :=
  match r with
  | Some (cap, m) =>
      Some {| matched := cap ++ matched m; groups := cap :: groups m; rest := rest m |}
  | None => None
  end.

(** A match that starts at the first character of [s]. *)
Fixpoint match_here (r : regex) (s : string) : option Match :=
  match r with
  | [] => Some {| matched := ""; groups := []; rest := s |}
  | Lit l :: r' =>
      match strip_prefix l s with
      | Some s' =>
          match match_here r' s' with
          | Some m =>
              Some {| matched := l ++ matched m; groups := groups m; rest := rest m |}
          | None => None
          end
      | None => None
      end
  | Greedy cls :: r' => starred (greedy_star cls (match_here r') s)
  | Lazy cls :: r' => starred (lazy_star cls (match_here r') s)
  end.

(** The leftmost match: [regex.exec(s)] from [lastIndex = 0],
    [s.match(regex)] without the [g] flag.  The result is the text before
    the match and the match.  None of the patterns looks behind, so a search
    from [lastIndex] is a search in the text that starts there. *)
Fixpoint search (r : regex) (s : string) : option (string * Match) :=
  match match_here r s with
  | Some m => Some (EmptyString, m)
  | None =>
      match s with
      | String c s' =>
          match search r s' with
          | Some (pre, m) => Some (String c pre, m)
          | None => None
          end
      | EmptyString => None
      end
  end.

(** [s.replace(regex, '')] without the [g] flag *)
Definition replace_first (r : regex) (s : string) : string :=
  match search r s with
  | Some (pre, m) => pre ++ rest m
  | None => s
  end.

(** [s.replace(regex, '')] with the [g] flag: after an empty match the
    search resumes one character later, and that character is kept. *)
Fixpoint replace_all (fuel : nat) (r : regex) (s : string) : option string :=
  match fuel with
  | O => None
  | S fuel' =>
      match search r s with
      | None => Some s
      | Some (pre, m) =>
          match matched m, rest m with
          | EmptyString, EmptyString => Some pre
          | EmptyString, String c s' =>
              option_map (fun t => pre ++ String c t) (replace_all fuel' r s')
          | _, s' => option_map (append pre) (replace_all fuel' r s')
          end
      end
  end.

(** *** Character classes and [trim] *)

Definition in_range (lo hi : nat) (c : ascii) : bool :=
  ((lo <=? nat_of_ascii c) && (nat_of_ascii c <=? hi))%nat.

(** [\w] *)
Definition is_word (c : ascii) : bool :=
  in_range 97 122 c || in_range 65 90 c || in_range 48 57 c
  || (nat_of_ascii c =? 95)%nat.

(** [[\s\S]] *)
Definition any_char (c : ascii) : bool := true.

(** White space and line terminators among the code units below 256: tab,
    line feed, vertical tab, form feed, carriage return, space and the
    no-break space. *)
Definition is_space (c : ascii) : bool :=
  in_range 9 13 c || (nat_of_ascii c =? 32)%nat || (nat_of_ascii c =? 160)%nat.

Fixpoint trim_start (s : string) : string :=
  match s with
  | String c s' => if is_space c then trim_start s' else s
  | EmptyString => EmptyString
  end.

Fixpoint trim_end (s : string) : string :=
  match s with
  | String c s' =>
      match trim_end s' with
      | EmptyString => if is_space c then EmptyString else String c EmptyString
      | t => String c t
      end
  | EmptyString => EmptyString
  end.

Definition trim (s : string) : string := trim_end (trim_start s).

(** ** The response parser, [src/utils/parser.ts] *)

Definition nl : string := String "010"%char EmptyString.
Definition fence : string := "```".

Record CodeBlock := mkCodeBlock { language : string; code : string }.

(** [args] and [execute] of a tool call are opaque to the parser. *)
Record ToolCall := mkToolCall { id : string; function : string }.

Record ParsedResult := mkParsed {
  content : string;
  codeBlocks : list CodeBlock;
  thinking : option string;
  toolCalls : option (list ToolCall)
}.

(** The pattern of a fenced block: three backticks, a group of [\w*], a line
    feed, a group of [[\s\S]*?] and three backticks, with the [g] flag. *)
Definition codeBlockRegex : regex :=
  [Lit fence; Greedy is_word; Lit nl; Lazy any_char; Lit fence].

(** The pattern of a pair of tags: the opening tag, a group of [[\s\S]*?]
    and the closing tag. *)
Definition paired (opening closing : string) : regex :=
  [Lit opening; Lazy any_char; Lit closing].

Definition thinkingTags : list (string * string) :=
  [("<thinking>", "</thinking>");
   ("<thought>", "</thought>");
   ("[thinking]", "[/thinking]")].

Definition thinkingPatterns : list regex :=
  map (fun t => paired (fst t) (snd t)) thinkingTags.

(** [a || b] on strings *)
Definition or_else (a b : string) : string :=
  match a with EmptyString => b | _ => a end.

(** [while ((match = codeBlockRegex.exec(content)) !== null) codeBlocks.push(...)];
    [lastIndex] is the start of [s] in [content]. *)
Fixpoint extract_code_blocks (fuel : nat) (s : string) : option (list CodeBlock) :=
  match fuel with
  | O => None
  | S fuel' =>
      match search codeBlockRegex s with
      | None => Some []
      | Some (_, m) =>
          match extract_code_blocks fuel' (rest m) with
          | Some blocks =>
              Some ({| language := or_else (group 1 m) "text";
                       code := trim (group 2 m) |} :: blocks)
          | None => None
          end
      end
  end.

(** [for (const pattern of thinkingPatterns) { ... break; }] *)
Fixpoint find_thinking (patterns : list regex) (s : string) : option string :=
  match patterns with
  | [] => None
  | pattern :: patterns' =>
      match search pattern s with
      | Some (_, thinkingMatch) => Some (trim (group 1 thinkingMatch))
      | None => find_thinking patterns' s
      end
  end.

(** [for (const pattern of thinkingPatterns) cleanContent = cleanContent.replace(pattern, '')] *)
Definition remove_thinking (patterns : list regex) (cleanContent : string) : string :=
  fold_left (fun c pattern => replace_first pattern c) patterns cleanContent.

(** The pattern that the cleaning gives to [replace] is the pattern of a
    fenced block written without its groups. *)
Definition parseResponse (text : string) : option ParsedResult :=
  let fuel := S (String.length text) in
  match extract_code_blocks fuel text with
  | None => None
  | Some blocks =>
      let thinking := find_thinking thinkingPatterns text in
      match replace_all fuel codeBlockRegex text with
      | None => None
      | Some cleanContent =>
          let cleanContent := remove_thinking thinkingPatterns cleanContent in
          let cleanContent := trim cleanContent in
          Some {| content := cleanContent;
                  codeBlocks := blocks;
                  thinking := thinking;
                  toolCalls := Some [] |}
      end
  end.

(** The text of the scenario of the design document. *)
Definition fixture : string :=
  "Hello" ++ nl ++ "```python" ++ nl ++ "def add(a,b):" ++ nl
  ++ "  return a+b" ++ nl ++ "```" ++ nl ++ "Done".

(** *** The specification of the scans *)

Fixpoint all_chars (cls : ascii -> bool) (s : string) : bool :=
  match s with
  | String c s' => cls c && all_chars cls s'
  | EmptyString => true
  end.

(** In [inner ++ x] the text [x] occurs at the end and nowhere before: the
    [x] that follows [inner] is the next one. *)
Definition closes_first (inner x : string) : Prop :=
  forall a b, inner ++ x = a ++ x ++ b -> b = "".

(** A property of the texts that start at a position holds at no position
    of [s]; it holds at no position of [pre] in [pre ++ s]. *)
Definition nowhere (starts : string -> Prop) (s : string) : Prop :=
  forall a b, s = a ++ b -> ~ starts b.

Definition not_before (starts : string -> Prop) (pre s : string) : Prop :=
  forall a b, pre = a ++ b -> b <> "" -> ~ starts (b ++ s).

(** A fenced block: the marker, a tag of word characters that may be empty,
    a line feed, the inner text and the marker. *)
Definition fenced_block (tag inner : string) : string :=
  fence ++ tag ++ nl ++ inner ++ fence.

Definition block_starts (s : string) : Prop :=
  exists tag inner post,
    s = fenced_block tag inner ++ post /\ all_chars is_word tag = true.

(** The fenced blocks of a text, from left to right: each block starts at
    the first position after the previous block where a block starts, and
    ends at the next marker. *)
Inductive Fenced : string -> list CodeBlock -> Prop :=
| fenced_done s :
    nowhere block_starts s ->
    Fenced s []
| fenced_next pre tag inner post blocks :
    not_before block_starts pre (fenced_block tag inner ++ post) ->
    all_chars is_word tag = true ->
    closes_first inner fence ->
    Fenced post blocks ->
    Fenced (pre ++ fenced_block tag inner ++ post)
           ({| language := if (tag =? "")%string then "text" else tag;
               code := trim inner |} :: blocks).

(** The text without its fenced blocks. *)
Inductive Stripped : string -> string -> Prop :=
| stripped_done s :
    nowhere block_starts s ->
    Stripped s s
| stripped_next pre tag inner post r :
    not_before block_starts pre (fenced_block tag inner ++ post) ->
    all_chars is_word tag = true ->
    closes_first inner fence ->
    Stripped post r ->
    Stripped (pre ++ fenced_block tag inner ++ post) (pre ++ r).

(** A region between a pair of tags. *)
Definition region (opening closing inner : string) : string :=
  opening ++ inner ++ closing.

Definition region_starts (opening closing s : string) : Prop :=
  exists inner post, s = region opening closing inner ++ post.

(** [Removed o c s inner r]: [r] is [s] without its first region between
    [o] and [c], whose inner text is [inner]; when [s] has no such region,
    [r] is [s]. *)
Inductive Removed (o c : string) : string -> option string -> string -> Prop :=
| removed_none s :
    nowhere (region_starts o c) s ->
    Removed o c s None s
| removed_first pre inner post :
    not_before (region_starts o c) pre (region o c inner ++ post) ->
    closes_first inner c ->
    Removed o c (pre ++ region o c inner ++ post) (Some inner) (pre ++ post).

(** The thinking of a text: the trimmed inner text of the first region of
    the first pair of tags that has a region in the text. *)
Inductive Thinking : list (string * string) -> string -> option string -> Prop :=
| thinking_absent s :
    Thinking [] s None
| thinking_found o c tags s inner r :
    Removed o c s (Some inner) r ->
    Thinking ((o, c) :: tags) s (Some (trim inner))
| thinking_next o c tags s th :
    Removed o c s None s ->
    Thinking tags s th ->
    Thinking ((o, c) :: tags) s th.

(** The first region of each pair of tags removed, one pair after the
    other. *)
Inductive Cleaned : list (string * string) -> string -> string -> Prop :=
| cleaned_done s :
    Cleaned [] s s
| cleaned_next o c tags s inner s' r :
    Removed o c s inner s' ->
    Cleaned tags s' r ->
    Cleaned ((o, c) :: tags) s r.

(** *** The scans as the design document words them *)

(** Following the specification's words: a fenced region is a
    triple-backtick marker optionally followed by a language tag, then the
    inner text, closed by the next triple-backtick marker; the regions of a
    text are taken from left to right and do not overlap.  Nothing
    separates the tag from the inner text. *)
Inductive SpecFenced : string -> list (string * string) -> Prop :=
| spec_fenced_done s :
    nowhere (region_starts fence fence) s ->
    SpecFenced s []
| spec_fenced_next pre tag inner post regions :
    not_before (region_starts fence fence) pre
               (region fence fence (tag ++ inner) ++ post) ->
    closes_first (tag ++ inner) fence ->
    SpecFenced post regions ->
    SpecFenced (pre ++ region fence fence (tag ++ inner) ++ post)
               ((tag, inner) :: regions).

(** Following the specification's words: the one matched thinking region,
    that of the first pair of tags that has a region, removed. *)
Inductive OneRemoved : list (string * string) -> string -> string -> Prop :=
| one_removed_none s :
    OneRemoved [] s s
| one_removed_found o c tags s inner r :
    Removed o c s (Some inner) r ->
    OneRemoved ((o, c) :: tags) s r
| one_removed_next o c tags s r :
    Removed o c s None s ->
    OneRemoved tags s r ->
    OneRemoved ((o, c) :: tags) s r.

(** Following the specification's words: the content is the text with
    every fenced region and the one matched thinking region removed, then
    trimmed. *)
Inductive SpecContent : string -> string -> Prop :=
| spec_content text stripped r :
    Stripped text stripped ->
    OneRemoved thinkingTags stripped r ->
    SpecContent text (trim r).

(** Following the specification's words: the thinking is found in the text
    with all fenced regions stripped. *)
Inductive SpecThinking : string -> option string -> Prop :=
| spec_thinking text stripped th :
    Stripped text stripped ->
    Thinking thinkingTags stripped th ->
    SpecThinking text th.

(** Texts on which the document and the parser differ. *)
Definition cpp_block : string :=
  "```c++" ++ nl ++ "int x;" ++ nl ++ "```".

Definition two_kinds_of_thinking : string :=
  "<thinking>a</thinking> <thought>b</thought> c".

Definition thinking_in_block : string :=
  "```" ++ nl ++ "<thinking>x</thinking>" ++ nl ++ "```".

(** ** The dispatcher, [src/llm.ts] *)

Inductive Role := user | assistant | system.

Record ChatMessage := mkMessage { role : Role; msg_content : string }.

(** The keys of the options that the dispatcher and the providers read;
    [opt_retry] is the options object as [getRetryConfig] sees it, through
    its keys [retries], [retryInterval] and [retryBackoff]. *)
Record ChatOptions `{Runtime} := mkChatOptions {
  temperature : option number;
  maxTokens : option number;
  topP : option number;
  topK : option number;
  opt_system : option string;
  opt_retry : RetryOptions
}.

(** A provider: the name of its class and its [chat] method, which is
    given the stream callback when there is one. *)
Record Provider `{Runtime} (Callback World T : Type) := mkProvider {
  constructor_name : string;
  provider_chat : string -> list ChatMessage -> ChatOptions -> option Callback
                  -> Operation World T
}.
Arguments constructor_name {_ Callback World T} _.
Arguments provider_chat {_ Callback World T} _ _ _ _ _.

(** The array [messages] of [LLM.chat] when the retry engine is called.
    Every attempt is given this one array; no provider writes to it, so it
    is a list here. *)
Definition chat_messages `{Runtime} (content : string) (options : ChatOptions)
  : list ChatMessage :=
  let messages := [ {| role := user; msg_content := content |} ] in
  if truthy_string (opt_system options) then
    {| role := system; msg_content := nullish (opt_system options) "" |} :: messages
  else messages.

Definition LLM_chat `{Runtime} {Callback World T : Type}
           (provider : Provider Callback World T) (modelId : string)
           (content : string) (options : ChatOptions)
           (streamCallback : option Callback) (w : World) : option (Run World T) :=
  let messages := chat_messages content options in
  let retryConfig := getRetryConfig (opt_retry options) in
  executeWithRetry
    (provider_chat provider modelId messages options streamCallback)
    retryConfig
    (Some (constructor_name provider ++ ":" ++ modelId))
    w.

(** ** Streams *)

(** [s.split(sep)] for a separator of one character. *)
Fixpoint split_on (sep : ascii) (s : string) : list string :=
  match s with
  | EmptyString => [EmptyString]
  | String c s' =>
      match split_on sep s' with
      | w :: ws => if Ascii.eqb c sep then EmptyString :: w :: ws
                   else String c w :: ws
      | [] => []
      end
  end.

(** *** The simulated stream, [src/providers/huggingface.ts] *)

(** The body of the [for] loop at index [i], the words from [i] on being
    [words] and [length] being [words.length]; the result is the list of
    the calls of [streamCallback].  The timer between two calls does not
    touch the text. *)
Fixpoint simulate_from (words : list string) (i length : nat) : list string :=
  match words with
  | [] => []
  | w :: words' =>
      let word := w ++ (if (i <? length - 1)%nat then " " else "") in
      word :: simulate_from words' (S i) length
  end.

Definition simulateStreaming (content : string) : list string :=
  let words := split_on " "%char content in
  simulate_from words 0 (List.length words).

(** *** Values of [JSON.parse] *)

Inductive json :=
| JNull
| JBool (b : bool)
| JNumber (q : Q)
| JString (s : string)
| JArray (items : list json)
| JObject (fields : list (string * json)).

Fixpoint assoc (k : string) (fields : list (string * json)) : option json :=
  match fields with
  | [] => None
  | (k', v) :: fields' => if (k =? k')%string then Some v else assoc k fields'
  end.

(** [v.k] for a value [v] that is not [null]; [None] is [undefined].  None
    of the keys that the handlers read is a property of a string or of an
    array. *)
Definition member (v : json) (k : string) : option json :=
  match v with
  | JObject fields => assoc k fields
  | _ => None
  end.

(** [v?.k] *)
Definition member_opt (v : option json) (k : string) : option json :=
  match v with
  | None | Some JNull => None
  | Some v' => member v' k
  end.

Definition truthy (v : option json) : bool :=
  match v with
  | None | Some JNull => false
  | Some (JBool b) => b
  | Some (JNumber q) => negb (Qeq_bool q 0)
  | Some (JString s) => negb (s =? "")%string
  | Some (JArray _) | Some (JObject _) => true
  end.

(** [v === 'literal'] *)
Definition is_string (v : option json) (literal : string) : bool :=
  match v with
  | Some (JString s) => (s =? literal)%string
  | _ => false
  end.

(** What the handlers take from outside: [JSON.parse], [None] when it
    throws, and the conversion to a string of a value that is not one. *)
Class Json := {
  JSON_parse : string -> option json;
  other_to_string : json -> string
}.

(** The string that [fullContent += content] appends. *)
Definition ToString `{Json} (v : json) : string :=
  match v with
  | JString s => s
  | _ => other_to_string v
  end.

(** *** The stream handlers *)

(** A call of [resolve]: the last record and the text that is given to
    [parseResponse].  The usage counts are left out. *)
Record Resolution := mkResolution { raw : json; fullText : string }.

Definition parsed (r : Resolution) : option ParsedResult :=
  parseResponse (fullText r).

(** What a stream does to its caller, in order. *)
Inductive StreamEvent :=
| TextDelta (v : json)             (* [streamCallback(content)] *)
| Completion (r : Resolution)      (* the promise is resolved *)
| Failure (e : JsError).           (* the promise is rejected *)

Record Stream := mkStream {
  fullContent : string;
  rawResponse : json;
  settled : bool;
  log : list StreamEvent
}.

Definition start : Stream :=
  {| fullContent := ""; rawResponse := JNull; settled := false; log := [] |}.

Definition deliver `{Json} (content : json) (st : Stream) : Stream :=
  {| fullContent := fullContent st ++ ToString content;
     rawResponse := rawResponse st;
     settled := settled st;
     log := (log st ++ [TextDelta content])%list |}.

Definition set_raw (parsed : json) (st : Stream) : Stream :=
  {| fullContent := fullContent st;
     rawResponse := parsed;
     settled := settled st;
     log := log st |}.

(** [resolve] and [reject] settle a promise that is pending and do nothing
    to a promise that is settled. *)
Definition settle (e : StreamEvent) (st : Stream) : Stream :=
  if settled st then st
  else {| fullContent := fullContent st;
          rawResponse := rawResponse st;
          settled := true;
          log := (log st ++ [e])%list |}.

Definition resolve (st : Stream) : Stream :=
  settle (Completion {| raw := rawResponse st; fullText := fullContent st |}) st.

Definition reject (e : JsError) (st : Stream) : Stream := settle (Failure e) st.

(** The body of the loop over the lines of a chunk; the boolean tells that
    the handler returns. *)
Definition LineHandler := Stream -> string -> Stream * bool.

Fixpoint on_lines (handle : LineHandler) (st : Stream) (lines : list string)
  : Stream :=
  match lines with
  | [] => st
  | line :: lines' =>
      match handle st line with
      | (st', true) => st'
      | (st', false) => on_lines handle st' lines'
      end
  end.

(** [AnthropicProvider.streamChat], one line of a chunk *)
Definition anthropic_line `{Json} : LineHandler :=
  fun st line =>
    match strip_prefix "data: " line with
    | Some data =>
        match JSON_parse data with
        | None => (st, false)
        | Some parsed =>
            let st := set_raw parsed st in
            match parsed with
            | JNull => (st, false)         (* [parsed.type] throws *)
            | _ =>
                if is_string (member parsed "type") "content_block_delta"
                   && truthy (member_opt (member parsed "delta") "text")
                then
                  match member_opt (member parsed "delta") "text" with
                  | Some content => (deliver content st, false)
                  | None => (st, false)
                  end
                else if is_string (member parsed "type") "message_stop"
                then (resolve st, true)
                else (st, false)
            end
        end
    | None => (st, false)
    end.

Definition anthropic_data `{Json} (st : Stream) (chunk : string) : Stream :=
  on_lines anthropic_line st (split_on "010"%char chunk).

(** [OllamaProvider.streamChat], one line of a chunk *)
Definition ollama_line `{Json} : LineHandler :=
  fun st line =>
    match JSON_parse line with
    | None => (st, false)
    | Some parsed =>
        let st := set_raw parsed st in
        match parsed with
        | JNull => (st, false)             (* [parsed.message] throws *)
        | _ =>
            let st :=
              match member_opt (member parsed "message") "content" with
              | Some content =>
                  if truthy (Some content) then deliver content st else st
              | None => st
              end in
            if truthy (member parsed "done") then (resolve st, true)
            else (st, false)
        end
    end.

Definition ollama_data `{Json} (st : Stream) (chunk : string) : Stream :=
  on_lines ollama_line st
           (filter (fun line => negb (trim line =? "")%string)
                   (split_on "010"%char chunk)).

(** The two handlers of the [data] event. *)
Definition handlers `{Json} : list (Stream -> string -> Stream) :=
  [anthropic_data; ollama_data].

(** What the response stream emits. *)
Inductive Emitted :=
| Data (chunk : string)
| Error (e : JsError).

Definition on_emitted (on_data : Stream -> string -> Stream)
           (st : Stream) (e : Emitted) : Stream :=
  match e with
  | Data chunk => on_data st chunk
  | Error err => reject err st
  end.

(** [streamChat]: the request fails, or it gives a response whose stream
    emits [emitted]. *)
Definition streamChat (on_data : Stream -> string -> Stream)
           (response : JsError + list Emitted) : Stream :=
  match response with
  | inl e => reject e start
  | inr emitted => fold_left (on_emitted on_data) emitted start
  end.

(** *** Observations on a stream *)

(** The deltas of a log, as one text. *)
Fixpoint text_of `{Json} (l : list StreamEvent) : string :=
  match l with
  | [] => ""
  | TextDelta v :: l' => ToString v ++ text_of l'
  | _ :: l' => text_of l'
  end.

Definition is_delta (e : StreamEvent) : bool :=
  match e with TextDelta _ => true | _ => false end.

(** A [JSON.parse] for the records of the examples. *)
Definition text_delta (t : string) : json :=
  JObject [("type", JString "content_block_delta");
           ("delta", JObject [("text", JString t)])].

Definition message_stop : json := JObject [("type", JString "message_stop")].

Definition ollama_message (t : string) (done : bool) : json :=
  JObject [("message", JObject [("content", JString t)]); ("done", JBool done)].

Definition example_json : Json :=
  {| JSON_parse := fun data =>
       if (data =? "STOP")%string then Some message_stop
       else match strip_prefix "TEXT " data with
            | Some t => Some (text_delta t)
            | None =>
                match strip_prefix "MSG " data with
                | Some t => Some (ollama_message t false)
                | None =>
                    match strip_prefix "DONE " data with
                    | Some t => Some (ollama_message t true)
                    | None => None
                    end
                end
            end;
     other_to_string := fun _ => "" |}.

Definition hello_stream : list Emitted :=
  [Data ("data: TEXT Hel" ++ nl ++ "data: TEXT lo"); Data "data: STOP"].

Definition late_delta_stream : list Emitted :=
  [Data "data: STOP"; Data "data: TEXT x"].

(** What one line of a chunk does to the stream: nothing but keeping the
    record, a delta, the resolution, or a delta and the resolution. *)
Inductive LineStep `{Json} (st : Stream) : Stream * bool -> Prop :=
| line_ignored :
    LineStep st (st, false)
| line_kept parsed :
    LineStep st (set_raw parsed st, false)
| line_delta parsed content :
    LineStep st (deliver content (set_raw parsed st), false)
| line_stop parsed :
    LineStep st (resolve (set_raw parsed st), true)
| line_delta_stop parsed content :
    LineStep st (resolve (deliver content (set_raw parsed st)), true).

(** The accumulated text is the text of the deltas, a resolution carries
    the text of the deltas before it and nothing but deltas comes before
    it, and a pending stream has had nothing but deltas. *)
Record Coherent `{Json} (st : Stream) : Prop := {
  coherent_text : fullContent st = text_of (log st);
  coherent_completion : forall pre r post,
      log st = (pre ++ Completion r :: post)%list ->
      fullText r = text_of pre /\ forallb is_delta pre = true;
  coherent_pending : settled st = false -> forallb is_delta (log st) = true
}.

(** Following the specification's words: the concatenation of all the
    deltas of the invocation is the full text of its completion, and no
    delta comes after the completion. *)
Definition SpecStream `{Json} (st : Stream) : Prop :=
  forall pre r post,
    log st = (pre ++ Completion r :: post)%list ->
    fullText r = text_of (log st) /\ existsb is_delta post = false.

(** Following the specification's words: a system message is prepended if
    and only if [options.system] is present. *)
Definition spec_messages `{Runtime} (content : string) (options : ChatOptions)
  : list ChatMessage :=
  match opt_system options with
  | Some s => [ {| role := system; msg_content := s |};
                {| role := user; msg_content := content |} ]
  | None => [ {| role := user; msg_content := content |} ]
  end.

Definition no_retry_options (env : option string)
  : @RetryOptions (integer_runtime env) :=
  @mkOptions (integer_runtime env) None None None.

Definition options_with_system (env : option string) (s : option string)
  : @ChatOptions (integer_runtime env) :=
  @mkChatOptions (integer_runtime env) None None None None s (no_retry_options env).

(** ** Further code *)

(** *** The diagnostics of the retry engine *)

Section Narration.

Context `{Runtime} {World T : Type}.
Variable operation : Operation World T.
Variable config : RetryConfig.
Variable context : option string.

(** A run of the engine that warns: an attempt that is followed by another
    one fails with an error [e], and what follows it is one warning that
    gives the number of the retry, the number of retries of the policy,
    the delay, the context and the message of [e], then the sleep, then
    the rest of the run.  [a] attempts were made before the run. *)
Inductive Narrated : nat -> World -> list Event -> Prop :=
| narrated_none a w :
    Narrated a w []
| narrated_last a w :
    Narrated a w [Call]
| narrated_retry a w e w' tr :
    operation w = (inl e, w') ->
    tr <> [] ->
    Narrated (S a) w' tr ->
    Narrated a w
      (Call
       :: Warn ("Retry " ++ string_of_Z (Z.of_nat a + 1) ++ "/"
                ++ string_of_Z (retries config) ++ " after "
                ++ number_to_string (delay_before config (a + 2)) ++ "ms"
                ++ contextMsg context ++ ": " ++ message e)
       :: Sleep (delay_before config (a + 2))
       :: tr).

End Narration.

(** A provider that records nothing and answers as [answers] tells, the
    world being the number of calls made. *)
Definition scripted_provider (env : option string)
           (answers : nat -> JsError + string)
  : @Provider (integer_runtime env) unit nat string :=
  @mkProvider (integer_runtime env) unit nat string "ScriptedProvider"
    (fun _ _ _ _ calls => (answers calls, S calls)).

(** *** More of the values of [JSON.parse] *)

(** [v[0]] for a value [v] that is not [null]: the first item of an array,
    the first character of a string, the property ["0"] of an object. *)
Definition element0 (v : json) : option json :=
  match v with
  | JArray items => nth_error items 0
  | JString (String c _) => Some (JString (String c EmptyString))
  | JObject fields => assoc "0" fields
  | _ => None
  end.

(** [v?.[0]] *)
Definition element0_opt (v : option json) : option json :=
  match v with
  | None | Some JNull => None
  | Some v' => element0 v'
  end.

(** [v || ''] *)
Definition or_empty (v : option json) : json :=
  match v with
  | Some v' => if truthy v then v' else JString EmptyString
  | None => JString EmptyString
  end.

(** [s.slice(n)] for [n >= 0] *)
Fixpoint slice_from (n : nat) (s : string) : string :=
  match n, s with
  | O, _ => s
  | S n', String _ s' => slice_from n' s'
  | S _, EmptyString => EmptyString
  end.

(** *** The handlers of the streams that end with a sentinel *)

(** [GroqProvider.streamChat], one line of a chunk *)
Definition groq_line `{Json} : LineHandler :=
  fun st line =>
    match strip_prefix "data: " line with
    | Some data =>
        if (data =? "[DONE]")%string then (resolve st, true)
        else
          match JSON_parse data with
          | None => (st, false)
          | Some parsed =>
              let st := set_raw parsed st in
              match parsed with
              | JNull => (st, false)               (* [parsed.choices] throws *)
              | _ =>
                  match member parsed "choices" with
                  | None | Some JNull => (st, false)   (* [choices[0]] throws *)
                  | Some choices =>
                      let content :=
                        or_empty (member_opt (member_opt (element0 choices) "delta")
                                             "content") in
                      if truthy (Some content) then (deliver content st, false)
                      else (st, false)
                  end
              end
          end
    | None => (st, false)
    end.

Definition groq_data `{Json} (st : Stream) (chunk : string) : Stream :=
  on_lines groq_line st (split_on "010"%char chunk).

(** [OpenRouterProvider.streamChat], one line of a chunk: the delta may
    come in the field [reasoning]. *)
Definition openrouter_line `{Json} : LineHandler :=
  fun st line =>
    match strip_prefix "data: " line with
    | Some data =>
        if (data =? "[DONE]")%string then (resolve st, true)
        else
          match JSON_parse data with
          | None => (st, false)
          | Some parsed =>
              let st := set_raw parsed st in
              match parsed with
              | JNull => (st, false)
              | _ =>
                  match member parsed "choices" with
                  | None | Some JNull => (st, false)
                  | Some choices =>
                      let delta := member_opt (element0 choices) "delta" in
                      let content := or_empty (member_opt delta "content") in
                      let content :=
                        if negb (truthy (Some content))
                           && truthy (member_opt delta "reasoning")
                        then match member_opt delta "reasoning" with
                             | Some reasoning => reasoning
                             | None => content
                             end
                        else content in
                      if truthy (Some content) then (deliver content st, false)
                      else (st, false)
                  end
              end
          end
    | None => (st, false)
    end.

Definition openrouter_data `{Json} (st : Stream) (chunk : string) : Stream :=
  on_lines openrouter_line st (split_on "010"%char chunk).

(** [GoogleProvider.streamChat], one line of a chunk: the test is on the
    trimmed line and the slice is of the line. *)
Definition google_line `{Json} : LineHandler :=
  fun st line =>
    match strip_prefix "data: " (trim line) with
    | Some _ =>
        let data := slice_from 6 line in
        match JSON_parse data with
        | None => (st, false)
        | Some parsed =>
            let st := set_raw parsed st in
            match parsed with
            | JNull => (st, false)             (* [parsed.candidates] throws *)
            | _ =>
                let candidate := element0_opt (member parsed "candidates") in
                let content :=
                  or_empty
                    (member_opt
                       (element0_opt (member_opt (member_opt candidate "content")
                                                 "parts"))
                       "text") in
                let st :=
                  if truthy (Some content) then deliver content st else st in
                if truthy (member_opt candidate "finishReason")
                then (resolve st, true)
                else (st, false)
            end
        end
    | None => (st, false)
    end.

Definition google_data `{Json} (st : Stream) (chunk : string) : Stream :=
  on_lines google_line st (split_on "010"%char chunk).

Definition sentinel_handlers `{Json} : list (Stream -> string -> Stream) :=
  [groq_data; openrouter_data; google_data].

(** The lines at which a handler resolves the promise. *)
Definition anthropic_terminal `{Json} (line : string) : bool :=
  match strip_prefix "data: " line with
  | Some data =>
      match JSON_parse data with
      | Some parsed => is_string (member parsed "type") "message_stop"
      | None => false
      end
  | None => false
  end.

Definition ollama_terminal `{Json} (line : string) : bool :=
  match JSON_parse line with
  | Some parsed => truthy (member parsed "done")
  | None => false
  end.

Definition groq_terminal (line : string) : bool :=
  match strip_prefix "data: " line with
  | Some data => (data =? "[DONE]")%string
  | None => false
  end.



Definition is_data (e : Emitted) : bool :=
  match e with Data _ => true | Error _ => false end.

Definition lines_of (e : Emitted) : list string :=
  match e with
  | Data chunk => split_on "010"%char chunk
  | Error _ => []
  end.

(** *** Observations on a parsed response *)

(** The character [c] is not in [s]. *)
Definition lacks (c : ascii) (s : string) : bool :=
  all_chars (fun d => negb (Ascii.eqb c d)) s.

(** No white space at the start or at the end. *)
Definition trimmed (s : string) : Prop :=
  (forall c t, s = String c t -> is_space c = false)
  /\ (forall t c, s = t ++ String c "" -> is_space c = false).

(** The lines that the Ollama handler keeps. *)
Definition keep_line (line : string) : bool := negb (trim line =? "")%string.

(** Three handlers with the lines at which they resolve the promise. *)
Definition terminal_lines `{Json}
  : list ((Stream -> string -> Stream) * (string -> bool)) :=
  [(anthropic_data, anthropic_terminal);
   (ollama_data, ollama_terminal);
   (groq_data, groq_terminal)].



(** *** The HuggingFace provider, [src/providers/huggingface.ts] *)

(** Why a promise is rejected: the error of the transport as it is, a
    [TypeError] of the runtime, or [new Error(`{label}: {cause}`)]. *)
Inductive Reason :=
| Transport (e : JsError)
| TypeError
| Wrapped (label : string) (cause : Reason).

Inductive Promise (A : Type) :=
| Fulfilled (a : A)
| RejectedWith (r : Reason)
| NeverSettled.
Arguments Fulfilled {A} a.
Arguments RejectedWith {A} r.
Arguments NeverSettled {A}.

(** [Array.isArray(data) ? data[0]?.generated_text : data.generated_text] *)
Definition hf_generated_text (data : json) : Reason + option json :=
  match data with
  | JArray items => inr (member_opt (nth_error items 0) "generated_text")
  | JNull => inl TypeError
  | _ => inr (member data "generated_text")
  end.

(** [chat] without a stream callback, on what [axios.post] gives: the
    error of the request, or the body of the response.  A content that is
    not a string makes [content.match] throw in the parser.  Every error
    is caught and wrapped. *)
Definition hf_chat (response : JsError + json) : Promise Resolution :=
  let failed := Wrapped "HuggingFace chat failed" in
  match response with
  | inl e => RejectedWith (failed (Transport e))
  | inr data =>
      match hf_generated_text data with
      | inl r => RejectedWith (failed r)
      | inr generatedText =>
          match or_empty generatedText with
          | JString content => Fulfilled {| raw := data; fullText := content |}
          | _ => RejectedWith (failed TypeError)
          end
      end
  end.

(** [streamChat]: the calls of the sink and the promise.  An error of the
    request or of the callback of [then] goes to [reject]; a content that
    is not a string makes [simulateStreaming] reject, and nothing listens
    to that. *)
Definition hf_streamChat (response : JsError + json)
  : list string * Promise Resolution :=
  match response with
  | inl e => ([], RejectedWith (Transport e))
  | inr data =>
      match hf_generated_text data with
      | inl r => ([], RejectedWith r)
      | inr generatedText =>
          match or_empty generatedText with
          | JString content =>
              (simulateStreaming content,
               Fulfilled {| raw := data; fullText := content |})
          | _ => ([], NeverSettled)
          end
      end
  end.

Definition is_system (m : ChatMessage) : bool :=
  match role m with system => true | _ => false end.

Definition is_user (m : ChatMessage) : bool :=
  match role m with user => true | _ => false end.

(** [HuggingFaceProvider.messagesToPrompt] *)
Definition messagesToPrompt (messages : list ChatMessage) : string :=
  let prompt :=
    match find is_system messages with
    | Some systemMessage => "System: " ++ msg_content systemMessage ++ nl ++ nl
    | None => ""
    end in
  let conversationMessages := filter (fun m => negb (is_system m)) messages in
  let prompt :=
    fold_left
      (fun prompt message =>
         match role message with
         | user => prompt ++ "Human: " ++ msg_content message ++ nl ++ nl
         | assistant => prompt ++ "Assistant: " ++ msg_content message ++ nl ++ nl
         | system => prompt
         end)
      conversationMessages prompt in
  match last (map Some conversationMessages) None with
  | Some m => if is_user m then prompt ++ "Assistant: " else prompt
  | None => prompt
  end.

(** *** The Google provider, [src/providers/google.ts] *)

Inductive GoogleRole := g_user | g_model.

(** [{ role, parts: [{ text }] }] *)
Record GoogleContent := mkContent { g_role : GoogleRole; g_text : string }.

Definition to_content (message : ChatMessage) : GoogleContent :=
  {| g_role := match role message with assistant => g_model | _ => g_user end;
     g_text := msg_content message |}.

(** [GoogleProvider.convertMessages]: the loop that pushes, then the
    assignment to the text of the first content. *)
Definition convertMessages (messages : list ChatMessage) : list GoogleContent :=
  let contents :=
    fold_left
      (fun contents message =>
         if is_system message then contents
         else (contents ++ [to_content message])%list)
      messages [] in
  match find is_system messages, contents with
  | Some systemMessage, first :: others =>
      match g_role first with
      | g_user =>
          {| g_role := g_role first;
             g_text := msg_content systemMessage ++ nl ++ nl ++ g_text first |}
          :: others
      | g_model => contents
      end
  | _, _ => contents
  end.

(** *** The payload of the Anthropic provider, [src/providers/anthropic.ts] *)

Record AnthropicPayload `{Runtime} := mkPayload {
  p_model : string;
  p_max_tokens : number;
  p_messages : list ChatMessage;
  p_temperature : option number;
  p_top_p : option number;
  p_top_k : option number;
  p_stream : bool;
  p_system : option string
}.

(** The payload of [AnthropicProvider.chat]; [number_truthy] is the truth
    value of a number. *)
Definition anthropic_payload `{Runtime} (number_truthy : number -> bool)
           {Callback : Type} (modelId : string) (messages : list ChatMessage)
           (options : ChatOptions) (streamCallback : option Callback)
  : AnthropicPayload :=
  let systemMessage := find is_system messages in
  let userMessages := filter (fun m => negb (is_system m)) messages in
  {| p_model := modelId;
     p_max_tokens :=
       match maxTokens options with
       | Some n => if number_truthy n then n else number_of_Z 4096
       | None => number_of_Z 4096
       end;
     p_messages := map (fun msg => {| role := role msg;
                                      msg_content := msg_content msg |})
                       userMessages;
     p_temperature := temperature options;
     p_top_p := topP options;
     p_top_k := topK options;
     p_stream := match streamCallback with Some _ => true | None => false end;
     p_system := option_map msg_content systemMessage |}.

(** *** The factory, [src/index.ts] *)




(** The lines that a handler cannot decode: they do not start with the
    field marker, or [JSON.parse] throws on them. *)
Definition anthropic_inert `{Json} (line : string) : bool :=
  match strip_prefix "data: " line with
  | Some data => match JSON_parse data with Some _ => false | None => true end
  | None => true
  end.

Definition ollama_inert `{Json} (line : string) : bool :=
  match JSON_parse line with Some _ => false | None => true end.

Definition groq_inert `{Json} (line : string) : bool :=
  match strip_prefix "data: " line with
  | Some data =>
      negb (data =? "[DONE]")%string
      && match JSON_parse data with Some _ => false | None => true end
  | None => true
  end.

Definition inert_lines `{Json} : list (LineHandler * (string -> bool)) :=
  [(anthropic_line, anthropic_inert);
   (ollama_line, ollama_inert);
   (groq_line, groq_inert);
   (openrouter_line, groq_inert)].

(** *** Records and options for the examples of the further code *)

Definition choice_delta (t : string) : json :=
  JObject [("choices",
            JArray [JObject [("delta", JObject [("content", JString t)])]])].

Definition sentinel_json : Json :=
  {| JSON_parse := fun data =>
       match strip_prefix "CHUNK " data with
       | Some t => Some (choice_delta t)
       | None => None
       end;
     other_to_string := fun _ => "" |}.

Definition chunked_stream : list Emitted :=
  [Data ("data: CHUNK Hel" ++ nl ++ "data: CHUNK lo" ++ nl ++ "data: [DONE]")].

Definition unfinished_stream : list Emitted :=
  [Data "data: TEXT Hel"; Data "event: ping"].

Definition options_with_retries (env : option string) (n : Z)
  : @ChatOptions (integer_runtime env) :=
  @mkChatOptions (integer_runtime env) None None None None None
    (@mkOptions (integer_runtime env) (Some n) None None).

Definition always_down : nat -> JsError + string :=
  fun _ => inl (mkError "down").

(** * Part II: the properties *)

(** ** Strings *)

Lemma append_nil_r (s : string) : s ++ "" = s.
Proof. induction s as [|c s IH]; simpl; [reflexivity | now rewrite IH]. Qed.

Lemma append_assoc (a b c : string) : (a ++ b) ++ c = a ++ (b ++ c).
Proof. induction a as [|x a IH]; simpl; [reflexivity | now rewrite IH]. Qed.

Lemma length_append (a b : string) :
  String.length (a ++ b) = (String.length a + String.length b)%nat.
Proof. induction a as [|x a IH]; simpl; [reflexivity | now rewrite IH]. Qed.

Lemma length_zero (s : string) : String.length s = 0%nat -> s = "".
Proof. destruct s; [reflexivity | discriminate]. Qed.

Lemma append_inv_head (a b c : string) : a ++ b = a ++ c -> b = c.
Proof.
  induction a as [|x a IH]; simpl; intros E; [exact E|].
  injection E as E. auto.
Qed.

(** Two ways of cutting one text in two. *)
Lemma append_eq_append (a b c d : string) :
  a ++ b = c ++ d ->
  (exists e, a = c ++ e /\ d = e ++ b) \/ (exists e, c = a ++ e /\ b = e ++ d).
Proof.
  revert c; induction a as [|x a IH]; intros c E; simpl in E.
  - right. exists c. split; [reflexivity | exact E].
  - destruct c as [|y c]; simpl in E.
    + left. exists (String x a). split; [reflexivity | now rewrite <- E].
    + injection E as -> E.
      destruct (IH c E) as [[e [-> ->]] | [e [-> ->]]].
      * left. exists e. split; reflexivity.
      * right. exists e. split; reflexivity.
Qed.

Lemma strip_prefix_append (l s : string) : strip_prefix l (l ++ s) = Some s.
Proof.
  induction l as [|c l IH]; simpl; [reflexivity|].
  now rewrite Ascii.eqb_refl.
Qed.

Lemma strip_prefix_Some (l s s' : string) :
  strip_prefix l s = Some s' -> s = l ++ s'.
Proof.
  revert s; induction l as [|c l IH]; intros s E; simpl in E.
  - now injection E as ->.
  - destruct s as [|d s]; [discriminate|].
    destruct (Ascii.eqb_spec c d) as [->|]; [|discriminate].
    simpl. f_equal. auto.
Qed.

Lemma strip_prefix_None (l s : string) :
  strip_prefix l s = None -> forall s', s <> l ++ s'.
Proof.
  intros E s' ->. rewrite strip_prefix_append in E. discriminate.
Qed.

(** *** [trim] *)

Lemma trim_start_spec (s : string) :
  exists l, s = l ++ trim_start s
            /\ all_chars is_space l = true
            /\ forall c t, trim_start s = String c t -> is_space c = false.
Proof.
  induction s as [|c s [l [E [Hl Hfirst]]]].
  - exists "". repeat split. discriminate.
  - simpl. destruct (is_space c) eqn:Hc.
    + exists (String c l). simpl. rewrite Hc, Hl, <- E. auto.
    + exists "". repeat split. intros c' t E'. now injection E' as <- _.
Qed.

Lemma trim_end_spec (s : string) :
  exists r, s = trim_end s ++ r
            /\ all_chars is_space r = true
            /\ forall t c, trim_end s = t ++ String c "" -> is_space c = false.
Proof.
  induction s as [|c s [r [E [Hr Hlast]]]].
  - exists "". repeat split. intros [|? ?]; discriminate.
  - simpl. destruct (trim_end s) as [|d t] eqn:Ht.
    + simpl in E. subst r. destruct (is_space c) eqn:Hc.
      * exists (String c s). simpl. rewrite Hc, Hr. repeat split.
        intros [|? ?]; discriminate.
      * exists s. repeat split; auto.
        intros [|? [|? ?]] c' E'; try discriminate. now injection E' as <-.
    + exists r. simpl in E. rewrite E. repeat split; auto.
      intros [|x u] c' E'; [discriminate|].
      injection E' as _ E'. exact (Hlast u c' E').
Qed.

Lemma trim_end_first (c : ascii) (s : string) :
  is_space c = false -> exists t, trim_end (String c s) = String c t.
Proof.
  intros Hc. simpl. destruct (trim_end s); rewrite ?Hc; eauto.
Qed.

(** [trim s] is [s] without the white space [l] it starts with and the
    white space [r] it ends with. *)
Lemma trim_spec (s : string) :
  exists l r,
    s = l ++ trim s ++ r
    /\ all_chars is_space l = true
    /\ all_chars is_space r = true
    /\ (forall c t, trim s = String c t -> is_space c = false)
    /\ (forall t c, trim s = t ++ String c "" -> is_space c = false).
Proof.
  unfold trim.
  destruct (trim_start_spec s) as [l [El [Hl Hfirst]]].
  destruct (trim_end_spec (trim_start s)) as [r [Er [Hr Hlast]]].
  exists l, r. repeat split; auto.
  - now rewrite <- Er.
  - intros c t E.
    destruct (trim_start s) as [|d u] eqn:Hs; [discriminate|].
    pose proof (Hfirst d u eq_refl) as Hd.
    destruct (trim_end_first d u Hd) as [t' Et]. rewrite Et in E.
    now injection E as <- _.
Qed.

(** ** Regular expressions *)

Section Stars.

Variable cls : ascii -> bool.
Variable k : string -> option Match.

Lemma greedy_star_sound s cap m :
  greedy_star cls k s = Some (cap, m) ->
  exists s', s = cap ++ s' /\ k s' = Some m /\ all_chars cls cap = true.
Proof.
  revert cap; induction s as [|c s IH]; intros cap E; simpl in E.
  - destruct (k "") as [m'|] eqn:Hk; [|discriminate].
    injection E as <- <-. exists "". auto.
  - assert (Hstop : option_map (pair "") (k (String c s)) = Some (cap, m) ->
                    exists s', String c s = cap ++ s' /\ k s' = Some m
                               /\ all_chars cls cap = true).
    { destruct (k (String c s)) as [m'|] eqn:Hk; [|discriminate].
      intros E'; injection E' as <- <-. exists (String c s). auto. }
    destruct (cls c) eqn:Hc; [|auto].
    destruct (greedy_star cls k s) as [[cap' m']|] eqn:Hrec; [|auto].
    injection E as <- <-.
    destruct (IH cap' eq_refl) as [s' [-> [Hk Hall]]].
    exists s'. simpl. rewrite Hc. auto.
Qed.

(** A run of the class that cannot be longer is the run of the star when
    what follows matches. *)
Lemma greedy_star_complete cap s' m :
  all_chars cls cap = true ->
  (forall c t, s' = String c t -> cls c = false) ->
  k s' = Some m ->
  greedy_star cls k (cap ++ s') = Some (cap, m).
Proof.
  intros Hall Hend Hk.
  induction cap as [|c cap IH]; simpl in *.
  - destruct s' as [|c t]; simpl; rewrite Hk; [reflexivity|].
    now rewrite (Hend c t eq_refl).
  - apply andb_prop in Hall as [Hc Hall].
    now rewrite Hc, (IH Hall).
Qed.

Lemma lazy_star_sound s cap m :
  lazy_star cls k s = Some (cap, m) ->
  exists s', s = cap ++ s' /\ k s' = Some m
             /\ forall a b, cap = a ++ b -> b <> "" -> k (b ++ s') = None.
Proof.
  revert cap; induction s as [|c s IH]; intros cap E; simpl in E.
  - destruct (k "") as [m'|] eqn:Hk; [|discriminate].
    injection E as <- <-. exists "". repeat split; auto.
    intros [|] b Hab; [|discriminate]. simpl in Hab. congruence.
  - destruct (k (String c s)) as [m'|] eqn:Hk.
    + injection E as <- <-. exists (String c s). repeat split; auto.
      intros [|] b Hab; [|discriminate]. simpl in Hab. congruence.
    + destruct (cls c); [|discriminate].
      destruct (lazy_star cls k s) as [[cap' m']|] eqn:Hrec; [|discriminate].
      injection E as <- <-.
      destruct (IH cap' eq_refl) as [s' [-> [Hk' Hmin]]].
      exists s'. repeat split; auto.
      intros [|x a] b Hab Hb; simpl in Hab.
      * subst b. exact Hk.
      * injection Hab as _ Hab. eauto.
Qed.

Lemma lazy_star_complete cap s' m :
  all_chars cls cap = true ->
  k s' = Some m ->
  (forall a b, cap = a ++ b -> b <> "" -> k (b ++ s') = None) ->
  lazy_star cls k (cap ++ s') = Some (cap, m).
Proof.
  intros Hall Hk Hmin.
  induction cap as [|c cap IH]; simpl in *.
  - destruct s'; simpl; now rewrite Hk.
  - apply andb_prop in Hall as [Hc Hall].
    pose proof (Hmin "" (String c cap) eq_refl ltac:(discriminate)) as Hhere.
    simpl in Hhere. rewrite Hhere, Hc, IH; auto.
    intros a b -> Hb. apply (Hmin (String c a) b); auto.
Qed.

Lemma lazy_star_None s :
  lazy_star cls k s = None -> k s = None.
Proof.
  destruct s; simpl; destruct (k _); congruence.
Qed.

End Stars.

Lemma all_chars_any (s : string) : all_chars any_char s = true.
Proof. induction s; simpl; auto. Qed.

(** A lazy star of any character fails when what follows matches nowhere. *)
Lemma lazy_any_None k s :
  lazy_star any_char k s = None -> forall a b, s = a ++ b -> k b = None.
Proof.
  induction s as [|c s IH]; intros E a b Hab.
  - destruct a; [|discriminate]. simpl in Hab. subst b.
    now apply lazy_star_None in E.
  - destruct a as [|x a]; simpl in Hab.
    + subst b. now apply lazy_star_None in E.
    + injection Hab as _ Hab.
      simpl in E. destruct (k (String c s)); [discriminate|].
      change (any_char c) with true in E. cbv iota in E.
      destruct (lazy_star any_char k s) as [[? ?]|] eqn:Hrec; [discriminate|].
      apply (IH eq_refl a b Hab).
Qed.

Section Search.

Variable r : regex.

Lemma search_sound s pre m :
  search r s = Some (pre, m) ->
  exists s2, s = pre ++ s2 /\ match_here r s2 = Some m
             /\ forall a b, pre = a ++ b -> b <> "" -> match_here r (b ++ s2) = None.
Proof.
  revert pre; induction s as [|c s IH]; intros pre E; simpl in E.
  - destruct (match_here r "") as [m'|] eqn:Hm; [|discriminate].
    injection E as <- <-. exists "". repeat split; auto.
    intros [|] b Hab; [|discriminate]. simpl in Hab. congruence.
  - destruct (match_here r (String c s)) as [m'|] eqn:Hm.
    + injection E as <- <-. exists (String c s). repeat split; auto.
      intros [|] b Hab; [|discriminate]. simpl in Hab. congruence.
    + destruct (search r s) as [[pre' m']|] eqn:Hrec; [|discriminate].
      injection E as <- <-.
      destruct (IH pre' eq_refl) as [s2 [-> [Hm' Hmin]]].
      exists s2. repeat split; auto.
      intros [|x a] b Hab Hb; simpl in Hab.
      * subst b. exact Hm.
      * injection Hab as _ Hab. eauto.
Qed.

Lemma search_complete pre s2 m :
  match_here r s2 = Some m ->
  (forall a b, pre = a ++ b -> b <> "" -> match_here r (b ++ s2) = None) ->
  search r (pre ++ s2) = Some (pre, m).
Proof.
  intros Hm Hmin.
  induction pre as [|c pre IH]; simpl.
  - destruct s2; simpl; now rewrite Hm.
  - pose proof (Hmin "" (String c pre) eq_refl ltac:(discriminate)) as Hhere.
    simpl in Hhere. rewrite Hhere, IH; auto.
    intros a b -> Hb. apply (Hmin (String c a) b); auto.
Qed.

Lemma search_None s :
  search r s = None -> forall a b, s = a ++ b -> match_here r b = None.
Proof.
  induction s as [|c s IH]; intros E a b Hab; simpl in E.
  - destruct a; [|discriminate]. simpl in Hab. subst b.
    destruct (match_here r ""); congruence.
  - destruct (match_here r (String c s)) eqn:Hm; [discriminate|].
    destruct (search r s) as [[? ?]|] eqn:Hrec; [discriminate|].
    destruct a as [|x a]; simpl in Hab.
    + now subst b.
    + injection Hab as _ Hab. eauto.
Qed.

Lemma search_None_complete s :
  (forall a b, s = a ++ b -> match_here r b = None) -> search r s = None.
Proof.
  induction s as [|c s IH]; intros Hno; simpl.
  - now rewrite (Hno "" "" eq_refl).
  - rewrite (Hno "" (String c s) eq_refl).
    rewrite IH; auto.
    intros a b ->. apply (Hno (String c a) b). reflexivity.
Qed.

End Search.

(** *** Unfolding [match_here] *)

Lemma match_here_Lit (l : string) (r : regex) (s : string) :
  match_here (Lit l :: r) s =
  match strip_prefix l s with
  | Some s' =>
      match match_here r s' with
      | Some m => Some (mkMatch (l ++ matched m) (groups m) (rest m))
      | None => None
      end
  | None => None
  end.
Proof. reflexivity. Qed.

Lemma match_here_Greedy (cls : ascii -> bool) (r : regex) (s : string) :
  match_here (Greedy cls :: r) s = starred (greedy_star cls (match_here r) s).
Proof. reflexivity. Qed.

Lemma match_here_Lazy (cls : ascii -> bool) (r : regex) (s : string) :
  match_here (Lazy cls :: r) s = starred (lazy_star cls (match_here r) s).
Proof. reflexivity. Qed.

(** *** A closing literal *)

Lemma lit_sound (c s : string) (m : Match) :
  match_here [Lit c] s = Some m ->
  exists post, s = c ++ post /\ m = mkMatch c [] post.
Proof.
  cbn [match_here].
  destruct (strip_prefix c s) as [post|] eqn:Hs; [|discriminate].
  intros E; injection E as <-. apply strip_prefix_Some in Hs.
  exists post. now rewrite append_nil_r.
Qed.

Lemma lit_complete (c post : string) :
  match_here [Lit c] (c ++ post) = Some (mkMatch c [] post).
Proof.
  cbn [match_here]. rewrite strip_prefix_append. cbn. now rewrite append_nil_r.
Qed.

Lemma append_length_cancel (a b : string) : a ++ b = b -> a = "".
Proof.
  intros E. apply length_zero.
  apply (f_equal String.length) in E. rewrite length_append in E. lia.
Qed.

Lemma append_same_head (c b : string) : c ++ b = c -> b = "".
Proof.
  intros E. apply length_zero.
  apply (f_equal String.length) in E. rewrite length_append in E. lia.
Qed.

(** The closing literal matches at no earlier position of [inner] exactly
    when it closes [inner] first. *)
Lemma closes_first_no_match inner c post :
  closes_first inner c ->
  forall a b, inner = a ++ b -> b <> "" -> match_here [Lit c] (b ++ c ++ post) = None.
Proof.
  intros Hfirst a b -> Hb.
  destruct (match_here [Lit c] (b ++ c ++ post)) as [m|] eqn:Hm; [|reflexivity].
  exfalso. apply lit_sound in Hm as [p [Hp _]].
  rewrite <- append_assoc in Hp.
  destruct (append_eq_append _ _ _ _ Hp) as [[e [He _]] | [e [He _]]].
  - assert (e = "").
    { apply (Hfirst a e). now rewrite append_assoc, He. }
    subst e. rewrite append_nil_r in He. apply append_length_cancel in He. auto.
  - apply (f_equal String.length) in He. rewrite !length_append in He.
    apply Hb, length_zero. lia.
Qed.

Lemma no_match_closes_first inner c post :
  (forall a b, inner = a ++ b -> b <> "" ->
               match_here [Lit c] (b ++ c ++ post) = None) ->
  closes_first inner c.
Proof.
  intros Hno a b E.
  destruct b as [|x b]; [reflexivity|]. exfalso.
  destruct (append_eq_append _ _ _ _ E) as [[e [He1 He2]] | [e [He1 He2]]].
  - destruct e as [|y e].
    + simpl in He2. apply append_same_head in He2. discriminate.
    + specialize (Hno a (String y e) He1 ltac:(discriminate)).
      rewrite <- append_assoc, <- He2, append_assoc, lit_complete in Hno.
      discriminate.
  - apply (f_equal String.length) in He2. rewrite !length_append in He2.
    simpl in He2. lia.
Qed.

(** *** Inner text up to the next closing literal *)

Lemma lazy_tail_sound (c s : string) (m : Match) :
  match_here [Lazy any_char; Lit c] s = Some m ->
  exists inner post,
    s = inner ++ c ++ post /\ closes_first inner c
    /\ m = mkMatch (inner ++ c) [inner] post.
Proof.
  rewrite match_here_Lazy. unfold starred.
  destruct (lazy_star any_char (match_here [Lit c]) s) as [[cap m']|] eqn:Hl;
    [|discriminate].
  intros E; injection E as <-.
  apply lazy_star_sound in Hl as [s' [-> [Hk Hmin]]].
  apply lit_sound in Hk as [post [-> ->]].
  exists cap, post. repeat split.
  apply (no_match_closes_first cap c post). exact Hmin.
Qed.

Lemma lazy_tail_complete (inner c post : string) :
  closes_first inner c ->
  match_here [Lazy any_char; Lit c] (inner ++ c ++ post)
  = Some (mkMatch (inner ++ c) [inner] post).
Proof.
  intros Hfirst. rewrite match_here_Lazy. unfold starred.
  rewrite (lazy_star_complete any_char (match_here [Lit c]) inner (c ++ post)
             (mkMatch c [] post)).
  - reflexivity.
  - apply all_chars_any.
  - apply lit_complete.
  - apply closes_first_no_match. exact Hfirst.
Qed.

Lemma lazy_tail_None (c s : string) :
  match_here [Lazy any_char; Lit c] s = None ->
  forall a b, s <> a ++ c ++ b.
Proof.
  rewrite match_here_Lazy. unfold starred.
  destruct (lazy_star any_char (match_here [Lit c]) s) as [[cap m']|] eqn:Hl;
    [discriminate|].
  intros _ a b ->.
  pose proof (lazy_any_None _ _ Hl a (c ++ b) eq_refl) as Hk.
  rewrite lit_complete in Hk. discriminate.
Qed.

(** A closing literal that occurs after [inner] occurs first after some
    [inner']. *)
Lemma closing_exists (inner c post : string) :
  exists inner' post',
    inner ++ c ++ post = inner' ++ c ++ post' /\ closes_first inner' c.
Proof.
  destruct (match_here [Lazy any_char; Lit c] (inner ++ c ++ post)) as [m|] eqn:Hm.
  - apply lazy_tail_sound in Hm as [inner' [post' [E [Hfirst _]]]].
    exists inner', post'. auto.
  - exfalso. exact (lazy_tail_None _ _ Hm inner post eq_refl).
Qed.

(** *** A region between a pair of tags *)

Lemma paired_sound (o c s : string) (m : Match) :
  match_here (paired o c) s = Some m ->
  exists inner post,
    s = region o c inner ++ post /\ closes_first inner c
    /\ m = mkMatch (region o c inner) [inner] post.
Proof.
  unfold paired. rewrite match_here_Lit.
  destruct (strip_prefix o s) as [s1|] eqn:Hs; [|discriminate].
  apply strip_prefix_Some in Hs as ->.
  destruct (match_here [Lazy any_char; Lit c] s1) as [m1|] eqn:Hm; [|discriminate].
  intros E; injection E as <-.
  apply lazy_tail_sound in Hm as [inner [post [-> [Hfirst ->]]]].
  exists inner, post. unfold region. rewrite !append_assoc. auto.
Qed.

Lemma paired_complete (o c inner post : string) :
  closes_first inner c ->
  match_here (paired o c) (region o c inner ++ post)
  = Some (mkMatch (region o c inner) [inner] post).
Proof.
  intros Hfirst. unfold paired, region.
  rewrite match_here_Lit.
  rewrite !append_assoc, strip_prefix_append, lazy_tail_complete by exact Hfirst.
  reflexivity.
Qed.

Lemma paired_None (o c s : string) :
  match_here (paired o c) s = None -> ~ region_starts o c s.
Proof.
  intros Hm [inner [post ->]].
  destruct (closing_exists inner c post) as [inner' [post' [E Hfirst]]].
  unfold region in Hm. rewrite !append_assoc, E in Hm.
  pose proof (paired_complete o c inner' post' Hfirst) as Hc.
  unfold region in Hc. rewrite !append_assoc in Hc. congruence.
Qed.

(** *** A fenced block *)

Lemma block_sound (s : string) (m : Match) :
  match_here codeBlockRegex s = Some m ->
  exists tag inner post,
    s = fenced_block tag inner ++ post
    /\ all_chars is_word tag = true
    /\ closes_first inner fence
    /\ m = mkMatch (fenced_block tag inner) [tag; inner] post.
Proof.
  unfold codeBlockRegex. rewrite match_here_Lit.
  destruct (strip_prefix fence s) as [s1|] eqn:Hs; [|discriminate].
  apply strip_prefix_Some in Hs as ->.
  rewrite match_here_Greedy. unfold starred.
  destruct (greedy_star is_word (match_here [Lit nl; Lazy any_char; Lit fence]) s1)
    as [[tag m1]|] eqn:Hg; [|discriminate].
  intros E; injection E as <-.
  apply greedy_star_sound in Hg as [s2 [-> [Hk Hword]]].
  rewrite match_here_Lit in Hk.
  destruct (strip_prefix nl s2) as [s3|] eqn:Hs; [|discriminate].
  apply strip_prefix_Some in Hs as ->.
  destruct (match_here [Lazy any_char; Lit fence] s3) as [m3|] eqn:Hm; [|discriminate].
  injection Hk as <-.
  apply lazy_tail_sound in Hm as [inner [post [-> [Hfirst ->]]]].
  exists tag, inner, post. unfold fenced_block. cbn [matched groups rest].
  rewrite !append_assoc. auto.
Qed.

Lemma block_complete (tag inner post : string) :
  all_chars is_word tag = true ->
  closes_first inner fence ->
  match_here codeBlockRegex (fenced_block tag inner ++ post)
  = Some (mkMatch (fenced_block tag inner) [tag; inner] post).
Proof.
  intros Hword Hfirst. unfold codeBlockRegex, fenced_block.
  rewrite match_here_Lit.
  rewrite !append_assoc, strip_prefix_append.
  rewrite match_here_Greedy. unfold starred.
  rewrite (greedy_star_complete is_word _ tag (nl ++ inner ++ fence ++ post)
             (mkMatch (nl ++ inner ++ fence) [inner] post)).
  - reflexivity.
  - exact Hword.
  - intros c t E. injection E as <- _. reflexivity.
  - rewrite match_here_Lit.
    rewrite strip_prefix_append, lazy_tail_complete by exact Hfirst.
    reflexivity.
Qed.

Lemma block_None (s : string) :
  match_here codeBlockRegex s = None -> ~ block_starts s.
Proof.
  intros Hm [tag [inner [post [-> Hword]]]].
  destruct (closing_exists inner fence post) as [inner' [post' [E Hfirst]]].
  pose proof (block_complete tag inner' post' Hword Hfirst) as Hc.
  unfold fenced_block in Hm, Hc. rewrite !append_assoc in Hm, Hc.
  rewrite E in Hm. congruence.
Qed.

(** ** The response parser *)

Lemma or_else_text (tag : string) :
  or_else tag "text" = if (tag =? "")%string then "text" else tag.
Proof. destruct tag; reflexivity. Qed.

Lemma fenced_block_length (tag inner post : string) :
  (String.length post < String.length (fenced_block tag inner ++ post))%nat.
Proof.
  unfold fenced_block, fence. rewrite !length_append. simpl. lia.
Qed.

(** What the leftmost match of the pattern of a fenced block is. *)
Lemma search_block_Some (s pre : string) (m : Match) :
  search codeBlockRegex s = Some (pre, m) ->
  exists tag inner post,
    s = pre ++ fenced_block tag inner ++ post
    /\ not_before block_starts pre (fenced_block tag inner ++ post)
    /\ all_chars is_word tag = true
    /\ closes_first inner fence
    /\ m = mkMatch (fenced_block tag inner) [tag; inner] post.
Proof.
  intros Hs. apply search_sound in Hs as [s2 [-> [Hm Hmin]]].
  apply block_sound in Hm as [tag [inner [post [-> [Hword [Hfirst ->]]]]]].
  exists tag, inner, post. repeat split; auto.
  intros a b Hab Hb Hstarts.
  pose proof (Hmin a b Hab Hb) as Hnone.
  exact (block_None _ Hnone Hstarts).
Qed.

Lemma search_block_None (s : string) :
  search codeBlockRegex s = None -> nowhere block_starts s.
Proof.
  intros Hs a b Hab. apply block_None. exact (search_None _ _ Hs a b Hab).
Qed.

Lemma search_block_first (pre tag inner post : string) :
  not_before block_starts pre (fenced_block tag inner ++ post) ->
  all_chars is_word tag = true ->
  closes_first inner fence ->
  search codeBlockRegex (pre ++ fenced_block tag inner ++ post)
  = Some (pre, mkMatch (fenced_block tag inner) [tag; inner] post).
Proof.
  intros Hbefore Hword Hfirst.
  apply search_complete; [now apply block_complete|].
  intros a b Hab Hb.
  destruct (match_here codeBlockRegex (b ++ fenced_block tag inner ++ post))
    as [m|] eqn:Hm; [|reflexivity].
  exfalso. apply (Hbefore a b Hab Hb).
  apply block_sound in Hm as [tag' [inner' [post' [E [Hword' _]]]]].
  exists tag', inner', post'. auto.
Qed.

Lemma search_block_nowhere (s : string) :
  nowhere block_starts s -> search codeBlockRegex s = None.
Proof.
  intros Hno. apply search_None_complete. intros a b Hab.
  destruct (match_here codeBlockRegex b) as [m|] eqn:Hm; [|reflexivity].
  exfalso. apply (Hno a b Hab).
  apply block_sound in Hm as [tag' [inner' [post' [E [Hword' _]]]]].
  exists tag', inner', post'. auto.
Qed.

(** The loop over the fenced blocks returns with the fuel that
    [parseResponse] gives it, and what it returns is the list of the fenced
    blocks of the text. *)
Lemma extract_code_blocks_Fenced (fuel : nat) : forall s,
  (String.length s < fuel)%nat ->
  exists blocks, extract_code_blocks fuel s = Some blocks /\ Fenced s blocks.
Proof.
  induction fuel as [|fuel IH]; intros s Hfuel; [lia|].
  cbn [extract_code_blocks].
  destruct (search codeBlockRegex s) as [[pre m]|] eqn:Hs.
  - apply search_block_Some in Hs
      as [tag [inner [post [-> [Hbefore [Hword [Hfirst ->]]]]]]].
    cbn [rest group groups nth Nat.sub].
    destruct (IH post) as [blocks [-> Hblocks]].
    { pose proof (fenced_block_length tag inner post).
      rewrite length_append in Hfuel. lia. }
    eexists; split; [reflexivity|].
    rewrite or_else_text. now apply fenced_next.
  - exists []. split; [reflexivity|].
    apply fenced_done. now apply search_block_None.
Qed.

Lemma Fenced_extract_code_blocks (s : string) (blocks : list CodeBlock) :
  Fenced s blocks ->
  forall fuel, (String.length s < fuel)%nat ->
               extract_code_blocks fuel s = Some blocks.
Proof.
  induction 1 as [s Hno | pre tag inner post blocks Hbefore Hword Hfirst _ IH];
    intros [|fuel] Hfuel; try lia; cbn [extract_code_blocks].
  - now rewrite search_block_nowhere.
  - rewrite search_block_first by assumption.
    cbn [rest group groups nth Nat.sub].
    rewrite IH, or_else_text; [reflexivity|].
    pose proof (fenced_block_length tag inner post).
    rewrite length_append in Hfuel. lia.
Qed.

Lemma replace_all_Stripped (fuel : nat) : forall s,
  (String.length s < fuel)%nat ->
  exists r, replace_all fuel codeBlockRegex s = Some r /\ Stripped s r.
Proof.
  induction fuel as [|fuel IH]; intros s Hfuel; [lia|].
  cbn [replace_all].
  destruct (search codeBlockRegex s) as [[pre m]|] eqn:Hs.
  - apply search_block_Some in Hs
      as [tag [inner [post [-> [Hbefore [Hword [Hfirst ->]]]]]]].
    cbn [rest matched].
    destruct (IH post) as [r [Hr Hstripped]].
    { pose proof (fenced_block_length tag inner post).
      rewrite length_append in Hfuel. lia. }
    exists (pre ++ r). split; [|now apply stripped_next].
    unfold fenced_block at 1, fence at 1. cbn [append].
    rewrite Hr. reflexivity.
  - exists s. split; [reflexivity|].
    apply stripped_done. now apply search_block_None.
Qed.

(** What the leftmost match of the pattern of a pair of tags is. *)
Lemma search_paired (o c s : string) :
  match search (paired o c) s with
  | Some (pre, m) =>
      exists inner, group 1 m = inner
                    /\ Removed o c s (Some inner) (pre ++ rest m)
  | None => Removed o c s None s
  end.
Proof.
  destruct (search (paired o c) s) as [[pre m]|] eqn:Hs.
  - apply search_sound in Hs as [s2 [-> [Hm Hmin]]].
    apply paired_sound in Hm as [inner [post [-> [Hfirst ->]]]].
    exists inner. split; [reflexivity|]. cbn [rest].
    apply removed_first; [|exact Hfirst].
    intros a b Hab Hb. apply paired_None. exact (Hmin a b Hab Hb).
  - apply removed_none. intros a b Hab.
    apply paired_None. exact (search_None _ _ Hs a b Hab).
Qed.

Lemma replace_first_Removed (o c s : string) :
  exists inner, Removed o c s inner (replace_first (paired o c) s).
Proof.
  unfold replace_first. pose proof (search_paired o c s) as H.
  destruct (search (paired o c) s) as [[pre m]|].
  - destruct H as [inner [_ H]]. eauto.
  - eauto.
Qed.

Lemma find_thinking_Thinking (tags : list (string * string)) (s : string) :
  Thinking tags s (find_thinking (map (fun t => paired (fst t) (snd t)) tags) s).
Proof.
  induction tags as [|[o c] tags IH]; cbn [map find_thinking fst snd].
  - apply thinking_absent.
  - pose proof (search_paired o c s) as H.
    destruct (search (paired o c) s) as [[pre m]|].
    + destruct H as [inner [-> H]]. eapply thinking_found. exact H.
    + now apply thinking_next.
Qed.

Lemma remove_thinking_Cleaned (tags : list (string * string)) : forall s,
  Cleaned tags s (remove_thinking (map (fun t => paired (fst t) (snd t)) tags) s).
Proof.
  unfold remove_thinking.
  induction tags as [|[o c] tags IH]; intros s; cbn [map fold_left fst snd].
  - apply cleaned_done.
  - destruct (replace_first_Removed o c s) as [inner H].
    eapply cleaned_next; [exact H | apply IH].
Qed.

(** [parseResponse] returns on every text. *)
Lemma parseResponse_run (text : string) :
  exists blocks stripped,
    Fenced text blocks /\ Stripped text stripped
    /\ parseResponse text =
       Some {| content := trim (remove_thinking thinkingPatterns stripped);
               codeBlocks := blocks;
               thinking := find_thinking thinkingPatterns text;
               toolCalls := Some [] |}.
Proof.
  unfold parseResponse.
  destruct (extract_code_blocks_Fenced (S (String.length text)) text)
    as [blocks [-> Hblocks]]; [lia|].
  destruct (replace_all_Stripped (S (String.length text)) text)
    as [stripped [-> Hstripped]]; [lia|].
  exists blocks, stripped. auto.
Qed.

(** *** The specifications determine the results *)

Lemma Stripped_replace_all (s r : string) :
  Stripped s r ->
  forall fuel, (String.length s < fuel)%nat ->
               replace_all fuel codeBlockRegex s = Some r.
Proof.
  induction 1 as [s Hno | pre tag inner post r Hbefore Hword Hfirst _ IH];
    intros [|fuel] Hfuel; try lia; cbn [replace_all].
  - now rewrite search_block_nowhere.
  - rewrite search_block_first by assumption.
    cbn [rest matched].
    unfold fenced_block at 1, fence at 1. cbn [append].
    rewrite IH; [reflexivity|].
    pose proof (fenced_block_length tag inner post).
    rewrite length_append in Hfuel. lia.
Qed.

Lemma Removed_search_None (o c s r : string) :
  Removed o c s None r -> search (paired o c) s = None /\ r = s.
Proof.
  intros Hr. inversion Hr as [s' Hno | ]; subst. split; [|reflexivity].
  apply search_None_complete. intros a b Hab.
  destruct (match_here (paired o c) b) as [m|] eqn:Hm; [|reflexivity].
  exfalso. apply (Hno a b Hab).
  apply paired_sound in Hm as [inner [post [E _]]].
  exists inner, post. exact E.
Qed.

Lemma Removed_search_Some (o c s inner r : string) :
  Removed o c s (Some inner) r ->
  exists pre post,
    search (paired o c) s = Some (pre, mkMatch (region o c inner) [inner] post)
    /\ r = pre ++ post.
Proof.
  intros Hr. inversion Hr as [ | pre inner' post Hbefore Hfirst]; subst.
  exists pre, post. split; [|reflexivity].
  apply search_complete; [now apply paired_complete|].
  intros a b Hab Hb.
  destruct (match_here (paired o c) (b ++ region o c inner ++ post))
    as [m|] eqn:Hm; [|reflexivity].
  exfalso. apply (Hbefore a b Hab Hb).
  apply paired_sound in Hm as [inner' [post' [E _]]].
  exists inner', post'. exact E.
Qed.

Lemma Removed_replace_first (o c s r : string) (inner : option string) :
  Removed o c s inner r -> r = replace_first (paired o c) s.
Proof.
  intros Hr. unfold replace_first. destruct inner as [inner|].
  - apply Removed_search_Some in Hr as [pre [post [-> ->]]]. reflexivity.
  - apply Removed_search_None in Hr as [-> ->]. reflexivity.
Qed.

Lemma Thinking_find_thinking (tags : list (string * string)) (s : string)
      (th : option string) :
  Thinking tags s th ->
  th = find_thinking (map (fun t => paired (fst t) (snd t)) tags) s.
Proof.
  induction 1 as [s | o c tags s inner r Hr | o c tags s th Hr _ IH];
    cbn [map find_thinking fst snd].
  - reflexivity.
  - apply Removed_search_Some in Hr as [pre [post [-> _]]]. reflexivity.
  - apply Removed_search_None in Hr as [-> _]. exact IH.
Qed.

Lemma Cleaned_remove_thinking (tags : list (string * string)) (s r : string) :
  Cleaned tags s r ->
  r = remove_thinking (map (fun t => paired (fst t) (snd t)) tags) s.
Proof.
  unfold remove_thinking.
  induction 1 as [s | o c tags s inner s' r Hr _ IH]; cbn [map fold_left fst snd].
  - reflexivity.
  - now rewrite <- (Removed_replace_first _ _ _ _ _ Hr).
Qed.

(** *** Deciding the specifications on a given text *)

Lemma closes_first_computed (inner c : string) :
  match_here [Lazy any_char; Lit c] (inner ++ c)
  = Some (mkMatch (inner ++ c) [inner] "") ->
  closes_first inner c.
Proof.
  intros Hm.
  apply lazy_tail_sound in Hm as [inner' [post' [_ [Hfirst E]]]].
  injection E as _ E _. now subst inner'.
Qed.

Lemma Fenced_computed (s : string) (blocks : list CodeBlock) :
  extract_code_blocks (S (String.length s)) s = Some blocks -> Fenced s blocks.
Proof.
  intros E.
  destruct (extract_code_blocks_Fenced (S (String.length s)) s)
    as [blocks' [E' H]]; [lia|].
  congruence.
Qed.

Lemma Stripped_computed (s r : string) :
  replace_all (S (String.length s)) codeBlockRegex s = Some r -> Stripped s r.
Proof.
  intros E.
  destruct (replace_all_Stripped (S (String.length s)) s) as [r' [E' H]]; [lia|].
  congruence.
Qed.

Lemma Removed_computed (o c s pre : string) (m : Match) :
  search (paired o c) s = Some (pre, m) ->
  Removed o c s (Some (group 1 m)) (pre ++ rest m).
Proof.
  intros E. pose proof (search_paired o c s) as H. rewrite E in H.
  destruct H as [inner [-> H]]. exact H.
Qed.

Lemma Removed_None_computed (o c s : string) :
  search (paired o c) s = None -> Removed o c s None s.
Proof.
  intros E. pose proof (search_paired o c s) as H. now rewrite E in H.
Qed.

(** The scenario of the design document. *)
Lemma parse_fixture_run :
  parseResponse fixture =
  Some {| content := "Hello" ++ nl ++ nl ++ "Done";
          codeBlocks := [ {| language := "python";
                             code := "def add(a,b):" ++ nl ++ "  return a+b" |} ];
          thinking := None;
          toolCalls := Some [] |}.
Proof. vm_compute. reflexivity. Qed.

(** *** The claims on the parser *)

(** C4, as amended: when a text has the fenced blocks [blocks] from left to
    right, a block being the marker, a tag of word characters that may be
    empty, a line feed, and the inner text closed by the next marker, then
    [parseResponse] returns exactly [blocks] as [codeBlocks], each with the
    tag (or ["text"] for an empty tag) as language and the trimmed inner
    text as code; and the text of the scenario gives the block and the
    content of the scenario. *)
Theorem parseResponse_codeBlocks (text : string) (blocks : list CodeBlock) :
  Fenced text blocks ->
  exists r,
    parseResponse text = Some r
    /\ codeBlocks r = blocks
    /\ (text = fixture ->
        blocks = [ {| language := "python";
                      code := "def add(a,b):" ++ nl ++ "  return a+b" |} ]
        /\ content r = "Hello" ++ nl ++ nl ++ "Done").
Proof.
  intros Hfenced.
  destruct (parseResponse_run text) as [blocks' [stripped [Hb [_ Hrun]]]].
  pose proof (Fenced_extract_code_blocks _ _ Hfenced (S (String.length text))
                (Nat.lt_succ_diag_r _)) as E1.
  pose proof (Fenced_extract_code_blocks _ _ Hb (S (String.length text))
                (Nat.lt_succ_diag_r _)) as E2.
  assert (blocks' = blocks) as -> by congruence.
  eexists; split; [exact Hrun|]. split; [reflexivity|].
  intros ->. rewrite parse_fixture_run in Hrun.
  injection Hrun as Hcontent Hblocks.
  split; [symmetry; exact Hblocks | cbn [content]; symmetry; exact Hcontent].
Qed.

(** C5, as amended: the content is the text with every fenced block
    removed and then, for each pair of thinking tags in order, the first
    region between these tags removed from what is left, trimmed; the text
    determines what is left after these removals. *)
Theorem parseResponse_content (text : string) :
  exists r stripped cleaned,
    parseResponse text = Some r
    /\ Stripped text stripped
    /\ Cleaned thinkingTags stripped cleaned
    /\ content r = trim cleaned
    /\ (forall stripped' cleaned',
           Stripped text stripped' ->
           Cleaned thinkingTags stripped' cleaned' ->
           cleaned' = cleaned).
Proof.
  destruct (parseResponse_run text) as [blocks [stripped [_ [Hs Hrun]]]].
  eexists; exists stripped, (remove_thinking thinkingPatterns stripped).
  split; [exact Hrun|]. split; [exact Hs|].
  split; [apply remove_thinking_Cleaned|]. split; [reflexivity|].
  intros stripped' cleaned' Hs' Hc'.
  pose proof (Stripped_replace_all _ _ Hs (S (String.length text))
                (Nat.lt_succ_diag_r _)) as E.
  pose proof (Stripped_replace_all _ _ Hs' (S (String.length text))
                (Nat.lt_succ_diag_r _)) as E'.
  assert (stripped' = stripped) as -> by congruence.
  exact (Cleaned_remove_thinking _ _ _ Hc').
Qed.

(** C6, as amended: the thinking is found in the text as it is, fenced
    blocks included: it is the trimmed inner text of the first region of the
    first pair of tags, in their order, that has a region in the text, and
    it is absent when no pair has one; the parser returns in both cases,
    and the text determines the thinking. *)
Theorem parseResponse_thinking (text : string) :
  exists r,
    parseResponse text = Some r
    /\ Thinking thinkingTags text (thinking r)
    /\ (forall th, Thinking thinkingTags text th -> th = thinking r).
Proof.
  destruct (parseResponse_run text) as [blocks [stripped [_ [_ Hrun]]]].
  eexists; split; [exact Hrun|]. split.
  - apply find_thinking_Thinking.
  - intros th Hth. exact (Thinking_find_thinking _ _ _ Hth).
Qed.

(** C10: [parseResponse] returns on every text, and the [toolCalls] of what
    it returns is the empty array. *)
Theorem parseResponse_total (text : string) :
  exists r, parseResponse text = Some r /\ toolCalls r = Some [].
Proof.
  destruct (parseResponse_run text) as [blocks [stripped [_ [_ Hrun]]]].
  eexists; split; [exact Hrun | reflexivity].
Qed.

(** ** Streams *)

Lemma split_on_cons (sep : ascii) (s : string) :
  exists w ws, split_on sep s = w :: ws.
Proof.
  induction s as [|c s [w [ws IH]]]; simpl; [eauto|].
  rewrite IH. destruct (Ascii.eqb c sep); eauto.
Qed.

(** Joining the pieces of a split with the separator gives the text back. *)
Lemma concat_split_on (sep : ascii) (s : string) :
  String.concat (String sep "") (split_on sep s) = s.
Proof.
  induction s as [|c s IH]; [reflexivity|].
  cbn [split_on]. destruct (split_on_cons sep s) as [w [ws E]].
  rewrite E in *.
  destruct (Ascii.eqb_spec c sep) as [->|Hc].
  - change (String.concat (String sep "") ("" :: w :: ws))
      with (String sep (String.concat (String sep "") (w :: ws))).
    now rewrite IH.
  - destruct ws as [|w' ws].
    + cbn [String.concat] in *. now rewrite IH.
    + change (String.concat (String sep "") (String c w :: w' :: ws))
        with (String c (String.concat (String sep "") (w :: w' :: ws))).
      now rewrite IH.
Qed.

Lemma simulate_from_length (words : list string) (i n : nat) :
  List.length (simulate_from words i n) = List.length words.
Proof.
  revert i; induction words as [|w words IH]; intros i; simpl; auto.
Qed.

(** The calls of the loop, one after the other, are the words joined by
    one space. *)
Lemma simulate_from_concat (words : list string) : forall i n,
  (i + List.length words = n)%nat ->
  String.concat "" (simulate_from words i n) = String.concat " " words.
Proof.
  induction words as [|w words IH]; intros i n Hn; [reflexivity|].
  cbn [simulate_from].
  destruct words as [|w' words]; simpl in Hn.
  - cbn [simulate_from String.concat].
    replace (i <? n - 1)%nat with false
      by (symmetry; apply Nat.ltb_ge; lia).
    apply append_nil_r.
  - replace (i <? n - 1)%nat with true
      by (symmetry; apply Nat.ltb_lt; simpl in Hn; lia).
    specialize (IH (S i) n ltac:(simpl in *; lia)).
    cbn [simulate_from] in IH |- *.
    cbn [String.concat] in IH |- *.
    cbn [simulate_from String.concat].
    change (String.concat "" (?a :: ?b :: ?l)) with (a ++ "" ++ String.concat "" (b :: l)).
    rewrite IH. cbn [append]. rewrite append_assoc. reflexivity.
Qed.

(** C8: the simulated stream calls the sink at least once, and the chunks
    it delivers, one after the other, are the source text. *)
Theorem simulateStreaming_concat (content : string) :
  (1 <= List.length (simulateStreaming content))%nat
  /\ String.concat "" (simulateStreaming content) = content.
Proof.
  unfold simulateStreaming. split.
  - rewrite simulate_from_length.
    destruct (split_on_cons " "%char content) as [w [ws ->]]. simpl. lia.
  - rewrite simulate_from_concat by reflexivity.
    apply (concat_split_on " "%char).
Qed.

(** *** The stream handlers *)

Lemma snoc_decompose {A : Type} (l pre post : list A) (e x : A) :
  (l ++ [e] = pre ++ x :: post)%list ->
  (post = [] /\ pre = l /\ x = e)
  \/ (exists post', post = (post' ++ [e])%list /\ l = (pre ++ x :: post')%list).
Proof.
  intros E.
  destruct post as [|y post _] using rev_ind.
  - apply app_inj_tail in E as [-> ->]. auto.
  - right. exists post.
    change (pre ++ x :: post ++ [y])%list with (pre ++ (x :: post) ++ [y])%list in E.
    rewrite app_assoc in E.
    apply app_inj_tail in E as [-> ->]. auto.
Qed.

Section Handlers.

Context `{Json}.

Lemma text_of_app (l1 l2 : list StreamEvent) :
  text_of (l1 ++ l2)%list = text_of l1 ++ text_of l2.
Proof.
  induction l1 as [|[v|r|e] l1 IH]; simpl; auto.
  now rewrite IH, append_assoc.
Qed.

Lemma no_completion_in_deltas (l pre post : list StreamEvent) (r : Resolution) :
  forallb is_delta l = true -> l <> (pre ++ Completion r :: post)%list.
Proof.
  intros Hall ->. rewrite forallb_app in Hall.
  apply andb_prop in Hall as [_ Hall]. discriminate.
Qed.

Lemma Coherent_start : Coherent start.
Proof.
  split; simpl; auto.
  intros [|? ?] r post E; discriminate.
Qed.

Lemma Coherent_set_raw (parsed : json) (st : Stream) :
  Coherent st -> Coherent (set_raw parsed st).
Proof. intros [H1 H2 H3]. split; simpl; auto. Qed.

Lemma Coherent_deliver (content : json) (st : Stream) :
  Coherent st -> Coherent (deliver content st).
Proof.
  intros [H1 H2 H3]. split; simpl.
  - rewrite text_of_app, H1. simpl. now rewrite append_nil_r.
  - intros pre r post E.
    apply snoc_decompose in E as [[_ [_ E]] | [post' [_ E]]]; [discriminate|].
    eauto.
  - intros Hp. rewrite forallb_app, (H3 Hp). reflexivity.
Qed.

Lemma Coherent_resolve (st : Stream) : Coherent st -> Coherent (resolve st).
Proof.
  intros Hst. unfold resolve, settle.
  destruct (settled st) eqn:Hs; [exact Hst|].
  destruct Hst as [H1 H2 H3]. split; simpl.
  - rewrite text_of_app, H1. simpl. now rewrite append_nil_r.
  - intros pre r post E.
    apply snoc_decompose in E as [[_ [-> E]] | [post' [_ E]]].
    + injection E as ->. simpl. auto.
    + exfalso. exact (no_completion_in_deltas _ _ _ _ (H3 Hs) E).
  - discriminate.
Qed.

Lemma Coherent_reject (e : JsError) (st : Stream) :
  Coherent st -> Coherent (reject e st).
Proof.
  intros Hst. unfold reject, settle.
  destruct (settled st) eqn:Hs; [exact Hst|].
  destruct Hst as [H1 H2 H3]. split; simpl.
  - rewrite text_of_app, H1. simpl. now rewrite append_nil_r.
  - intros pre r post E.
    apply snoc_decompose in E as [[_ [_ E]] | [post' [_ E]]]; [discriminate|].
    eauto.
  - discriminate.
Qed.

Lemma LineStep_Coherent (st st' : Stream) (b : bool) :
  Coherent st -> LineStep st (st', b) -> Coherent st'.
Proof.
  intros Hst Hstep. inversion Hstep; subst;
    auto using Coherent_set_raw, Coherent_deliver, Coherent_resolve.
Qed.

Lemma LineStep_pending (st st' : Stream) :
  settled st = false -> LineStep st (st', false) -> settled st' = false.
Proof. intros Hs Hstep. inversion Hstep; subst; simpl; auto. Qed.

(** When a line makes the handler return, the promise that was pending
    is resolved, and the resolution is the last event. *)
Lemma LineStep_returns (st st' : Stream) :
  Coherent st -> settled st = false -> LineStep st (st', true) ->
  exists l r, log st' = (l ++ [Completion r])%list /\ forallb is_delta l = true.
Proof.
  intros [_ _ H3] Hs Hstep. specialize (H3 Hs).
  inversion Hstep; subst; unfold resolve, settle; simpl; rewrite Hs; simpl.
  - eauto.
  - eexists; eexists; split; [reflexivity|].
    rewrite forallb_app, H3. reflexivity.
Qed.

Lemma anthropic_line_step (st : Stream) (line : string) :
  LineStep st (anthropic_line st line).
Proof.
  unfold anthropic_line.
  destruct (strip_prefix "data: " line) as [data|]; [|constructor].
  destruct (JSON_parse data) as [parsed|]; [|constructor].
  destruct (is_string (member parsed "type") "content_block_delta"
            && truthy (member_opt (member parsed "delta") "text")).
  - destruct (member_opt (member parsed "delta") "text");
      destruct parsed; constructor.
  - destruct (is_string (member parsed "type") "message_stop");
      destruct parsed; constructor.
Qed.

Lemma ollama_line_step (st : Stream) (line : string) :
  LineStep st (ollama_line st line).
Proof.
  unfold ollama_line.
  destruct (JSON_parse line) as [parsed|]; [|constructor].
  destruct (member_opt (member parsed "message") "content") as [content|].
  - destruct (truthy (Some content)), (truthy (member parsed "done"));
      destruct parsed; constructor.
  - destruct (truthy (member parsed "done")); destruct parsed; constructor.
Qed.

Section Lines.

Variable handle : LineHandler.
Hypothesis handle_step : forall st line, LineStep st (handle st line).

Lemma on_lines_Coherent (lines : list string) : forall st,
  Coherent st -> Coherent (on_lines handle st lines).
Proof.
  induction lines as [|line lines IH]; intros st Hst; simpl; [exact Hst|].
  pose proof (handle_step st line) as Hstep.
  destruct (handle st line) as [st' [|]].
  - exact (LineStep_Coherent _ _ _ Hst Hstep).
  - apply IH. exact (LineStep_Coherent _ _ _ Hst Hstep).
Qed.

Lemma on_lines_returns (lines : list string) : forall st,
  Coherent st -> settled st = false ->
  settled (on_lines handle st lines) = true ->
  exists l r, log (on_lines handle st lines) = (l ++ [Completion r])%list
              /\ forallb is_delta l = true.
Proof.
  induction lines as [|line lines IH]; intros st Hst Hs Hs'; simpl in *.
  - congruence.
  - pose proof (handle_step st line) as Hstep.
    destruct (handle st line) as [st' [|]].
    + exact (LineStep_returns _ _ Hst Hs Hstep).
    + apply IH; auto.
      * exact (LineStep_Coherent _ _ _ Hst Hstep).
      * exact (LineStep_pending _ _ Hs Hstep).
Qed.

End Lines.

Lemma handlers_lines (on_data : Stream -> string -> Stream) :
  In on_data handlers ->
  exists handle select,
    (forall st line, LineStep st (handle st line))
    /\ forall st chunk, on_data st chunk = on_lines handle st (select chunk).
Proof.
  intros [<- | [<- | []]].
  - exists anthropic_line, (split_on "010"%char).
    split; [apply anthropic_line_step | reflexivity].
  - exists ollama_line,
      (fun chunk => filter (fun line => negb (trim line =? "")%string)
                           (split_on "010"%char chunk)).
    split; [apply ollama_line_step | reflexivity].
Qed.

Lemma streamChat_Coherent (on_data : Stream -> string -> Stream)
      (response : JsError + list Emitted) :
  In on_data handlers -> Coherent (streamChat on_data response).
Proof.
  intros Hin. destruct (handlers_lines on_data Hin) as [handle [select [Hstep Hdata]]].
  destruct response as [e|emitted]; simpl.
  - apply Coherent_reject, Coherent_start.
  - generalize Coherent_start. generalize start.
    induction emitted as [|[chunk|e] emitted IH]; intros st Hst; simpl; auto.
    + apply IH. rewrite Hdata. now apply on_lines_Coherent.
    + apply IH. now apply Coherent_reject.
Qed.

(** C7, as amended: in a stream of the Anthropic or of the Ollama handler,
    the deltas delivered before the completion, one after the other, are
    the full text that the completion carries, which is the text that is
    parsed into the result; nothing but deltas comes before the
    completion; and when the completion comes with the last chunk that
    the transport emits, nothing comes after it. *)
Theorem streamChat_completion (on_data : Stream -> string -> Stream)
        (response : JsError + list Emitted)
        (pre post : list StreamEvent) (r : Resolution) :
  In on_data handlers ->
  log (streamChat on_data response) = (pre ++ Completion r :: post)%list ->
  fullText r = text_of pre
  /\ forallb is_delta pre = true
  /\ parsed r = parseResponse (text_of pre)
  /\ (forall emitted chunk,
         response = inr (emitted ++ [Data chunk])%list ->
         settled (streamChat on_data (inr emitted)) = false ->
         post = []).
Proof.
  intros Hin Hlog.
  pose proof (streamChat_Coherent on_data response Hin) as Hco.
  destruct (coherent_completion _ Hco pre r post Hlog) as [Htext Hpre].
  split; [exact Htext|]. split; [exact Hpre|].
  split; [unfold parsed; now rewrite Htext|].
  intros emitted chunk -> Hpending.
  destruct (handlers_lines on_data Hin) as [handle [select [Hstep Hdata]]].
  pose proof (streamChat_Coherent on_data (inr emitted) Hin) as Hco'.
  simpl in Hlog, Hpending, Hco'.
  rewrite fold_left_app in Hlog. simpl in Hlog. rewrite Hdata in Hlog.
  destruct (settled (on_lines handle (fold_left (on_emitted on_data) emitted start)
                              (select chunk))) eqn:Hs.
  - destruct (on_lines_returns handle Hstep _ _ Hco' Hpending Hs)
      as [l [r' [Hl Hall]]].
    rewrite Hl in Hlog.
    apply snoc_decompose in Hlog as [[-> _] | [post' [_ E]]]; [reflexivity|].
    exfalso. exact (no_completion_in_deltas _ _ _ _ Hall E).
  - exfalso.
    pose proof (on_lines_Coherent handle Hstep (select chunk) _ Hco') as Hco''.
    pose proof (coherent_pending _ Hco'' Hs) as Hall.
    exact (no_completion_in_deltas _ _ _ _ Hall Hlog).
Qed.

End Handlers.

(** ** The dispatcher *)

(** C9, as amended: [LLM.chat] runs the retry engine on the call of the
    provider with, as messages, a system message that carries
    [options.system] when it is present and not empty, followed by one user
    message that carries the text; the policy takes each of its three fields
    from the options, or from the defaults 1, 1000 and 2 when the field is
    absent. *)
Theorem LLM_chat_request `{Runtime} {Callback World T : Type}
        (provider : Provider Callback World T) (modelId content : string)
        (options : ChatOptions) (streamCallback : option Callback) (w : World) :
  LLM_chat provider modelId content options streamCallback w =
  executeWithRetry
    (provider_chat provider modelId
       (match opt_system options with
        | Some s =>
            if (s =? "")%string then [ {| role := user; msg_content := content |} ]
            else [ {| role := system; msg_content := s |};
                   {| role := user; msg_content := content |} ]
        | None => [ {| role := user; msg_content := content |} ]
        end)
       options streamCallback)
    {| retries := match opt_retries (opt_retry options) with
                  | Some n => n
                  | None => 1
                  end;
       retryInterval := match opt_retryInterval (opt_retry options) with
                        | Some d => d
                        | None => number_of_Z 1000
                        end;
       retryBackoff := match opt_retryBackoff (opt_retry options) with
                       | Some b => b
                       | None => number_of_Z 2
                       end |}
    (Some (constructor_name provider ++ ":" ++ modelId))
    w.
Proof.
  unfold LLM_chat, chat_messages, truthy_string, getRetryConfig, nullish.
  destruct (opt_system options) as [s|]; [|reflexivity].
  destruct (s =? "")%string; reflexivity.
Qed.

(** ** The retry engine *)

Section RetryEngine.

Context `{Runtime} {World T : Type}.
Variable operation : Operation World T.
Variable config : RetryConfig.
Variable context : option string.

Lemma attempts_warning a d e tr :
  attempts (warning config context a d e ++ tr)%list = attempts tr.
Proof. unfold warning; destruct not_under_test; reflexivity. Qed.

Lemma quiet_warning a d e tr :
  quiet (warning config context a d e ++ tr)%list = quiet tr.
Proof. unfold warning; destruct not_under_test; reflexivity. Qed.

Lemma backoff_delay_before (a : nat) :
  backoff_delay config (Z.of_nat a + 1) = delay_before config (a + 2).
Proof.
  unfold backoff_delay, delay_before.
  do 3 f_equal. lia.
Qed.

Lemma result_of_call_S n w :
  result_of_call operation (S n) w = result_of_call operation n (snd (operation w)).
Proof. reflexivity. Qed.

Lemma schedule_from_S a n :
  schedule_from config a (S (S n)) =
  Call :: Sleep (delay_before config (a + 2)) :: schedule_from config (S a) (S n).
Proof.
  unfold schedule_from. simpl. reflexivity.
Qed.

(** One failing attempt that is not the last one, followed by a run that
    meets its specification. *)
Lemma RunSpec_retry a lastError w e w' out w'' tr :
  operation w = (inl e, w') ->
  Z.of_nat a + 1 < maxAttempts config ->
  RunSpec operation config context (S a) (Some e) w' (out, w'', tr) ->
  RunSpec operation config context a lastError w
          (out, w'',
           (Call :: warning config context (Z.of_nat a + 1)
                      (backoff_delay config (Z.of_nat a + 1)) e
                 ++ [Sleep (backoff_delay config (Z.of_nat a + 1))]) ++ tr)%list.
Proof.
  intros Hop Hlt [Hshape Hworld Hfail Hend]; cbn [fst snd] in *.
  set (d := backoff_delay config (Z.of_nat a + 1)).
  set (tr0 := ((Call :: warning config context (Z.of_nat a + 1) d e ++ [Sleep d])
                 ++ tr)%list).
  assert (Hatt : attempts tr0 = S (attempts tr)).
  { change (S (attempts ((warning config context (Z.of_nat a + 1) d e
                            ++ [Sleep d]) ++ tr)%list) = S (attempts tr)).
    rewrite <- app_assoc, attempts_warning. reflexivity. }
  assert (Hquiet : quiet tr0 = Call :: Sleep d :: quiet tr).
  { change (Call :: quiet ((warning config context (Z.of_nat a + 1) d e
                              ++ [Sleep d]) ++ tr)%list
            = Call :: Sleep d :: quiet tr).
    rewrite <- app_assoc, quiet_warning. reflexivity. }
  assert (Hpos : exists n, attempts tr = S n).
  { inversion Hend; subst; [lia | eexists; reflexivity ..]. }
  destruct Hpos as [n Hn].
  clearbody tr0.
  split; cbn [fst snd]; rewrite Hatt.
  - rewrite Hquiet, Hshape, Hn, schedule_from_S.
    unfold d. rewrite backoff_delay_before. reflexivity.
  - simpl. rewrite Hop. exact Hworld.
  - intros [|i] Hi.
    + unfold result_of_call; simpl. rewrite Hop. exact I.
    + rewrite result_of_call_S, Hop. apply Hfail. lia.
  - rewrite Hn in *. inversion Hend; subst.
    + apply ending_success; [|lia]. rewrite result_of_call_S, Hop. assumption.
    + apply ending_exhausted.
      * rewrite result_of_call_S, Hop. assumption.
      * lia.
Qed.

(** The loop returns when it has [maxAttempts - attempt] units of fuel
    and one more, and its run meets the specification. *)
Lemma retry_loop_run fuel : forall a lastError w,
  Z.max 0 (maxAttempts config - Z.of_nat a) < Z.of_nat fuel ->
  exists r, retry_loop operation config context fuel (Z.of_nat a) lastError w = Some r
            /\ RunSpec operation config context a lastError w r.
Proof.
  induction fuel as [|fuel IH]; intros a lastError w Hfuel.
  - lia.
  - simpl. destruct (Z.ltb_spec (Z.of_nat a) (maxAttempts config)) as [Hlt|Hge].
    + destruct (operation w) as [[e|v] w'] eqn:Hop.
      * destruct (Z.geb_spec (Z.of_nat a + 1) (maxAttempts config)) as [Hlast|Hmore].
        -- eexists; split; [reflexivity|].
           split; simpl; try reflexivity.
           ++ rewrite Hop; reflexivity.
           ++ intros i Hi. unfold attempts in Hi; simpl in Hi. lia.
           ++ apply ending_exhausted; [unfold result_of_call; simpl; now rewrite Hop|].
              simpl. lia.
        -- destruct (IH (S a) (Some e) w') as [[[out w''] tr] [Hrun Hspec]]; [lia|].
           replace (Z.of_nat (S a)) with (Z.of_nat a + 1) in Hrun by lia.
           rewrite Hrun. simpl.
           eexists; split; [reflexivity|].
           apply (RunSpec_retry a lastError w e w' out w'' tr Hop); [lia|assumption].
      * eexists; split; [reflexivity|].
        split; simpl; try reflexivity.
        -- rewrite Hop; reflexivity.
        -- intros i Hi. unfold attempts in Hi; simpl in Hi. lia.
        -- apply ending_success; [|simpl; lia].
           unfold result_of_call; simpl; now rewrite Hop.
    + eexists; split; [reflexivity|].
      split; simpl; try reflexivity.
      * intros i Hi. unfold attempts in Hi; simpl in Hi. lia.
      * apply ending_skipped. lia.
Qed.

(** [executeWithRetry] returns, whatever the policy and the operation. *)
Lemma executeWithRetry_run w :
  exists r, executeWithRetry operation config context w = Some r
            /\ RunSpec operation config context 0 None w r.
Proof.
  unfold executeWithRetry.
  apply (retry_loop_run (S (Z.to_nat (maxAttempts config))) 0%nat None w).
  lia.
Qed.

Lemma last_schedule n : last (schedule config n) Call = Call.
Proof.
  destruct n as [|m]; [reflexivity|].
  unfold schedule. generalize (seq 2 m) as l.
  induction l as [|i l IH]; [reflexivity|].
  exact IH.
Qed.

(** C1: with [retries >= 0], when the first [k - 1] calls of the
    operation fail and the [k]-th one succeeds (or [k] is [retries + 1]),
    the engine returns after exactly [min k (retries + 1)] calls of the
    operation; it returns the value of the [k]-th call when that call
    succeeds within the budget, and it throws when its last call fails. *)
Theorem executeWithRetry_attempts (w : World) (k : nat) :
  0 <= retries config ->
  (1 <= k)%nat ->
  (forall i, (S i < k)%nat -> fails (result_of_call operation i w)) ->
  (~ fails (result_of_call operation (k - 1) w)
   \/ Z.of_nat k = retries config + 1) ->
  exists out w' tr,
    executeWithRetry operation config context w = Some (out, w', tr)
    /\ Z.of_nat (attempts tr) = Z.min (Z.of_nat k) (retries config + 1)
    /\ w' = world_after operation (attempts tr) w
    /\ (forall v, Z.of_nat k <= retries config + 1 ->
                  result_of_call operation (k - 1) w = inr v ->
                  out = Returned v)
    /\ (forall e, result_of_call operation (k - 1) w = inl e ->
                  out = Thrown (Some (exhausted config context e))).
Proof.
  intros Hpos Hk Hfail Hkth.
  destruct (executeWithRetry_run w) as [[[out w'] tr] [Hrun [_ Hworld Hfails Hend]]].
  cbn [fst snd] in *.
  exists out, w', tr. split; [exact Hrun|].
  set (n := attempts tr) in *. clearbody n. clear Hrun.
  replace (k - 1)%nat with (pred k) by lia.
  destruct k as [|k]; [lia|]. cbn [pred] in *.
  replace (S k - 1)%nat with k in Hkth by lia.
  inversion Hend as [Hskip | m v Hres Hbound | m e Hres Hbound];
    subst; unfold maxAttempts in *.
  - lia.
  - assert (m = k) as ->.
    { destruct (Nat.lt_trichotomy k m) as [Hlt | [Heq | Hgt]].
      - assert (Hf : fails (result_of_call operation k w)) by (apply Hfails; lia).
        destruct Hkth as [Hs | Hlast]; [contradiction | lia].
      - congruence.
      - specialize (Hfail m ltac:(lia)). rewrite Hres in Hfail. contradiction. }
    repeat split; try lia; intros; congruence.
  - destruct (Nat.lt_trichotomy k m) as [Hlt | [Heq | Hgt]].
    + assert (Hf : fails (result_of_call operation k w)) by (apply Hfails; lia).
      destruct Hkth as [Hs | Hlast]; [contradiction | lia].
    + subst m. repeat split; try lia; intros; congruence.
    + destruct Hkth as [Hs | Hlast]; [|lia].
      repeat split; try lia.
      intros e' He'. rewrite He' in Hs. elim Hs. exact I.
Qed.

(** C2: with [retries >= 0], when every attempt fails the engine throws
    an error whose message is ["Failed after "], the configured number of
    retries, [" retries"], the context between parentheses after a space
    when a non-empty context was given and nothing otherwise, [": "] and
    the message of the error of the last attempt; the last attempt is
    attempt [retries + 1]. *)
Theorem executeWithRetry_exhausted_message (w : World) :
  0 <= retries config ->
  (forall i, Z.of_nat i <= retries config ->
             fails (result_of_call operation i w)) ->
  exists cause w' tr,
    result_of_call operation (Z.to_nat (retries config)) w = inl cause
    /\ executeWithRetry operation config context w =
       Some (Thrown (Some (mkError
               ("Failed after " ++ string_of_Z (retries config) ++ " retries"
                ++ match context with
                   | Some c => if (c =? "")%string then "" else " (" ++ c ++ ")"
                   | None => ""
                   end
                ++ ": " ++ message cause))), w', tr)
    /\ Z.of_nat (attempts tr) = retries config + 1.
Proof.
  intros Hpos Hfail.
  destruct (executeWithRetry_run w) as [[[out w'] tr] [Hrun [_ _ _ Hend]]].
  cbn [fst snd] in *.
  remember (attempts tr) as n eqn:Hn.
  inversion Hend as [Hskip | m v Hres Hbound | m e Hres Hbound];
    subst; unfold maxAttempts in *.
  - lia.
  - specialize (Hfail m ltac:(lia)). rewrite Hres in Hfail. contradiction.
  - exists e, w', tr.
    replace (Z.to_nat (retries config)) with m by lia.
    split; [exact Hres|]. split; [|lia].
    rewrite Hrun. unfold exhausted, contextMsg, truthy_string, nullish.
    destruct context as [c|]; [|reflexivity].
    destruct (c =? "")%string; reflexivity.
Qed.

(** C3: every run of the engine is attempt 1, then for each further
    attempt [i] a sleep of [retryInterval * Math.pow(retryBackoff, i - 2)]
    followed by attempt [i]; nothing follows the last attempt, and with
    [retries = 0] the run is one attempt without any sleep. *)
Theorem executeWithRetry_delays (w : World) :
  exists out w' tr,
    executeWithRetry operation config context w = Some (out, w', tr)
    /\ quiet tr = schedule config (attempts tr)
    /\ last (quiet tr) Call = Call
    /\ (retries config = 0 -> quiet tr = [Call]).
Proof.
  destruct (executeWithRetry_run w) as [[[out w'] tr] [Hrun [Hshape _ _ Hend]]].
  cbn [fst snd] in *.
  exists out, w', tr. split; [exact Hrun|].
  change (schedule_from config 0 (attempts tr))
    with (schedule config (attempts tr)) in Hshape.
  split; [exact Hshape|]. split.
  - rewrite Hshape. apply last_schedule.
  - intros Hzero. rewrite Hshape.
    set (n := attempts tr) in *. clearbody n.
    inversion Hend as [Hskip | m v Hres Hbound | m e Hres Hbound];
      subst; unfold maxAttempts in *.
    + lia.
    + replace m with 0%nat by lia. reflexivity.
    + replace m with 0%nat by lia. reflexivity.
Qed.

End RetryEngine.

(** The tests of [tests/retry.test.ts], run on the model. *)

Example retry_eventually_succeeds :
  executeWithRetry (H := integer_runtime (Some "test"))
    (fails_until 3 "Temporary failure" "success after retries")
    (policy (Some "test") (3) 10 2) None 0%nat
  = Some (Returned "success after retries", 3%nat,
          [Call; sleep (Some "test") 10; Call; sleep (Some "test") 20; Call]).
Proof. reflexivity. Qed.

Example retry_exhausted :
  executeWithRetry (H := integer_runtime (Some "test"))
    (always_fails "Persistent failure")
    (policy (Some "test") (2) 10 2)
    (Some "test-context") 0%nat
  = Some (Thrown (Some (mkError
            "Failed after 2 retries (test-context): Persistent failure")),
          3%nat, [Call; sleep (Some "test") 10; Call; sleep (Some "test") 20; Call]).
Proof. reflexivity. Qed.

Example retry_zero_retries :
  executeWithRetry (H := integer_runtime (Some "test"))
    (always_fails "Always fails")
    (policy (Some "test") (0) 10 2) None 0%nat
  = Some (Thrown (Some (mkError "Failed after 0 retries: Always fails")),
          1%nat, [Call]).
Proof. reflexivity. Qed.

Example retry_warns_outside_tests :
  executeWithRetry (H := integer_runtime None)
    (always_fails "down")
    (policy None (1) 50 3) (Some "Groq:m") 0%nat
  = Some (Thrown (Some (mkError "Failed after 1 retries (Groq:m): down")),
          2%nat,
          [Call; Warn "Retry 1/1 after 50ms (Groq:m): down"; sleep None 50; Call]).
Proof. reflexivity. Qed.

(** A negative retry count: the loop body never runs and line 62 throws the
    unassigned [lastError]. *)
Example retry_negative_retries :
  executeWithRetry (H := integer_runtime (Some "test"))
    (always_fails "x")
    (policy (Some "test") (-1) 10 2) None 0%nat
  = Some (Thrown None, 0%nat, []).
Proof. reflexivity. Qed.

Lemma executeWithRetry_attempts_witness :
  exists out w' tr,
    executeWithRetry (H := integer_runtime (Some "test"))
      (fails_until 3 "Temporary failure" "success after retries")
      (policy (Some "test") (3) 10 2) None 0%nat
    = Some (out, w', tr)
    /\ Z.of_nat (attempts tr) = Z.min (Z.of_nat 3) (3 + 1)
    /\ w' = world_after
              (fails_until 3 "Temporary failure" "success after retries")
              (attempts tr) 0%nat
    /\ (forall v, Z.of_nat 3 <= 3 + 1 ->
                  result_of_call
                    (fails_until 3 "Temporary failure" "success after retries")
                    (3 - 1) 0%nat = inr v ->
                  out = Returned v)
    /\ (forall e, result_of_call
                    (fails_until 3 "Temporary failure" "success after retries")
                    (3 - 1) 0%nat = inl e ->
                  out = Thrown (Some (exhausted
                          (policy (Some "test") (3) 10 2)
                          None e))).
Proof.
  apply (executeWithRetry_attempts (H := integer_runtime (Some "test"))
           (fails_until 3 "Temporary failure" "success after retries")
           (policy (Some "test") (3) 10 2) None
           0%nat 3%nat).
  - simpl. lia.
  - lia.
  - intros [|[|i]] Hi; simpl; try exact I. lia.
  - left. simpl. intros [].
Defined.

Lemma executeWithRetry_exhausted_message_witness :
  exists cause w' tr,
    result_of_call (always_fails "Persistent failure") (Z.to_nat 2) 0%nat
    = inl cause
    /\ executeWithRetry (H := integer_runtime (Some "test"))
         (always_fails "Persistent failure")
         (policy (Some "test") (2) 10 2)
         (Some "test-context") 0%nat
       = Some (Thrown (Some (mkError
                 ("Failed after " ++ "2" ++ " retries" ++ " (test-context)"
                  ++ ": " ++ message cause))), w', tr)
    /\ Z.of_nat (attempts tr) = 2 + 1.
Proof.
  apply (executeWithRetry_exhausted_message (H := integer_runtime (Some "test"))
           (always_fails "Persistent failure")
           (policy (Some "test") (2) 10 2)
           (Some "test-context") 0%nat).
  - simpl. lia.
  - intros i _. exact I.
Defined.


(** ** Instances and counterexamples *)

Lemma parseResponse_codeBlocks_witness :
  exists r,
    parseResponse fixture = Some r
    /\ codeBlocks r = [ {| language := "python";
                           code := "def add(a,b):" ++ nl ++ "  return a+b" |} ]
    /\ (fixture = fixture ->
        [ {| language := "python";
             code := "def add(a,b):" ++ nl ++ "  return a+b" |} ]
        = [ {| language := "python";
               code := "def add(a,b):" ++ nl ++ "  return a+b" |} ]
        /\ content r = "Hello" ++ nl ++ nl ++ "Done").
Proof.
  apply (parseResponse_codeBlocks fixture).
  apply Fenced_computed. vm_compute. reflexivity.
Defined.

(** C4, as stated, fails: a block whose tag is [c++] is a fenced region of
    the design document, and the parser returns no block for it, because
    its pattern wants a line feed right after a tag of word characters. *)
Lemma codeBlocks_need_line_feed :
  ~ (forall text regions,
        SpecFenced text regions ->
        exists r, parseResponse text = Some r
                  /\ List.length (codeBlocks r) = List.length regions).
Proof.
  intros Hclaim.
  destruct (Hclaim cpp_block [("c++", nl ++ "int x;" ++ nl)]) as [r [Hr Hlen]].
  - change cpp_block
      with ("" ++ region fence fence ("c++" ++ nl ++ "int x;" ++ nl) ++ "").
    apply spec_fenced_next.
    + intros a b Hab Hb. destruct a; [|discriminate]. simpl in Hab. congruence.
    + apply closes_first_computed. vm_compute. reflexivity.
    + apply spec_fenced_done. intros a b Hab [inner [post E]].
      destruct a; [|discriminate]. simpl in Hab. subst b. discriminate.
  - vm_compute in Hr. injection Hr as <-. discriminate.
Qed.

(** C5, as stated, fails: with a region of the first pair of tags and a
    region of the second pair, the document keeps the second region in the
    content, and the parser removes both. *)
Lemma content_loses_every_kind_of_thinking :
  ~ (forall text c,
        SpecContent text c ->
        exists r, parseResponse text = Some r /\ content r = c).
Proof.
  intros Hclaim.
  assert (Hspec : SpecContent two_kinds_of_thinking
                              (trim " <thought>b</thought> c")).
  { apply (spec_content _ two_kinds_of_thinking).
    - apply Stripped_computed. vm_compute. reflexivity.
    - apply (one_removed_found _ _ _ _ "a").
      exact (Removed_computed "<thinking>" "</thinking>" two_kinds_of_thinking ""
               (mkMatch "<thinking>a</thinking>" ["a"] " <thought>b</thought> c")
               eq_refl). }
  destruct (Hclaim _ _ Hspec) as [r [Hr Hcontent]].
  vm_compute in Hr. injection Hr as <-.
  vm_compute in Hcontent. discriminate.
Qed.

(** C6, as stated, fails: a thinking region inside a fenced block is not in
    the text without its blocks, and the parser finds it, because it
    searches the text as it is. *)
Lemma thinking_found_in_block :
  ~ (forall text th,
        SpecThinking text th ->
        exists r, parseResponse text = Some r /\ thinking r = th).
Proof.
  intros Hclaim.
  assert (Hspec : SpecThinking thinking_in_block None).
  { apply (spec_thinking _ "").
    - apply Stripped_computed. vm_compute. reflexivity.
    - unfold thinkingTags.
      repeat (apply thinking_next;
              [apply Removed_None_computed; reflexivity|]).
      apply thinking_absent. }
  destruct (Hclaim _ _ Hspec) as [r [Hr Hth]].
  vm_compute in Hr. injection Hr as <-. discriminate.
Qed.

Example anthropic_hello :
  log (streamChat (anthropic_data (H := example_json)) (inr hello_stream))
  = [TextDelta (JString "Hel"); TextDelta (JString "lo");
     Completion {| raw := message_stop; fullText := "Hello" |}].
Proof. reflexivity. Qed.

Example ollama_hello :
  log (streamChat (ollama_data (H := example_json))
         (inr [Data ("MSG Hel" ++ nl ++ nl ++ "not json" ++ nl ++ "DONE lo")]))
  = [TextDelta (JString "Hel"); TextDelta (JString "lo");
     Completion {| raw := ollama_message "lo" true; fullText := "Hello" |}].
Proof. reflexivity. Qed.

Lemma streamChat_completion_witness :
  fullText {| raw := message_stop; fullText := "Hello" |}
  = text_of (H := example_json)
            [TextDelta (JString "Hel"); TextDelta (JString "lo")]
  /\ forallb is_delta [TextDelta (JString "Hel"); TextDelta (JString "lo")] = true
  /\ parsed {| raw := message_stop; fullText := "Hello" |}
     = parseResponse
         (text_of (H := example_json)
                  [TextDelta (JString "Hel"); TextDelta (JString "lo")])
  /\ (forall emitted chunk,
         @inr JsError _ hello_stream = inr (emitted ++ [Data chunk])%list ->
         settled (streamChat (anthropic_data (H := example_json))
                             (@inr JsError _ emitted)) = false ->
         @nil StreamEvent = []).
Proof.
  apply (streamChat_completion (H := example_json)
           (anthropic_data (H := example_json)) (inr hello_stream)
           [TextDelta (JString "Hel"); TextDelta (JString "lo")] []
           {| raw := message_stop; fullText := "Hello" |}).
  - left. reflexivity.
  - reflexivity.
Defined.

(** C7, as stated, fails: the handler of the [data] event stays in place
    when the promise is resolved, so a delta that the transport emits after
    the terminal record is delivered after the completion and is not part
    of its text. *)
Lemma delta_after_completion :
  ~ (forall (J : Json) (response : JsError + list Emitted),
        SpecStream (streamChat anthropic_data response)).
Proof.
  intros Hclaim.
  destruct (Hclaim example_json (inr late_delta_stream) []
              {| raw := message_stop; fullText := "" |}
              [TextDelta (JString "x")] eq_refl) as [Htext Hlate].
  discriminate.
Qed.

(** C9, as stated, fails: an empty [options.system] is present, and no
    system message is prepended, because the test is on its truth value. *)
Lemma system_message_needs_text :
  ~ (forall (H : Runtime) (content : string) (options : ChatOptions),
        chat_messages content options = spec_messages content options).
Proof.
  intros Hclaim.
  specialize (Hclaim (integer_runtime None) "Hi"
                     (options_with_system None (Some ""))).
  discriminate.
Qed.

Example chat_with_system :
  chat_messages "Hi" (options_with_system None (Some "Be brief"))
  = [ {| role := system; msg_content := "Be brief" |};
      {| role := user; msg_content := "Hi" |} ].
Proof. reflexivity. Qed.

Example retry_config_partial :
  getRetryConfig (@mkOptions (integer_runtime None) (Some 2) None None)
  = policy None 2 1000 2.
Proof. reflexivity. Qed.

Example simulate_two_spaces :
  simulateStreaming "a  b" = ["a "; " "; "b"].
Proof. reflexivity. Qed.

Example simulate_empty : simulateStreaming "" = [""].
Proof. reflexivity. Qed.

(** * Part III: further properties *)

(** ** The retry engine *)

Section RetryEngineMore.

Context `{Runtime} {World T : Type}.
Variable operation : Operation World T.
Variable config : RetryConfig.
Variable context : option string.

(** X1: with a negative number of retries the engine does not call the
    operation: it throws the [lastError] that was never assigned, that is
    [undefined], and the world is as it was. *)
Theorem executeWithRetry_negative_retries (w : World) :
  retries config < 0 ->
  executeWithRetry operation config context w = Some (Thrown None, w, []).
Proof.
  intros Hneg. unfold executeWithRetry. cbn [retry_loop].
  destruct (Z.ltb_spec 0 (maxAttempts config)) as [Hlt|Hge]; [|reflexivity].
  unfold maxAttempts in Hlt. lia.
Qed.

Lemma retry_loop_nonempty (fuel : nat) (a : Z) (lastError : option JsError)
      (w w' : World) (out : Settled T) (tr : list Event) :
  retry_loop operation config context fuel a lastError w = Some (out, w', tr) ->
  a < maxAttempts config ->
  tr <> [].
Proof.
  destruct fuel as [|fuel]; [discriminate|].
  cbn [retry_loop]. intros E Hlt.
  destruct (Z.ltb_spec a (maxAttempts config)) as [_|Hge]; [|lia].
  destruct (operation w) as [[e|v] w1].
  - destruct (a + 1 >=? maxAttempts config).
    + injection E as _ _ <-. discriminate.
    + destruct (retry_loop operation config context fuel (a + 1) (Some e) w1)
        as [[[out1 w2] tr1]|]; [|discriminate].
      injection E as _ _ <-. discriminate.
  - injection E as _ _ <-. discriminate.
Qed.

Lemma retry_loop_narrated (fuel : nat) : forall (a : nat) lastError w out w' tr,
  retry_loop operation config context fuel (Z.of_nat a) lastError w
  = Some (out, w', tr) ->
  (not_under_test = true -> Narrated operation config context a w tr)
  /\ (not_under_test = false -> quiet tr = tr).
Proof.
  induction fuel as [|fuel IH]; intros a lastError w out w' tr E; [discriminate|].
  cbn [retry_loop] in E.
  destruct (Z.ltb_spec (Z.of_nat a) (maxAttempts config)) as [Hlt|Hge].
  - destruct (operation w) as [[e|v] w1] eqn:Hop.
    + destruct (Z.geb_spec (Z.of_nat a + 1) (maxAttempts config)) as [Hlast|Hmore].
      * injection E as _ _ <-. split; intros _; [apply narrated_last | reflexivity].
      * destruct (retry_loop operation config context fuel (Z.of_nat a + 1)
                             (Some e) w1) as [[[out1 w2] tr1]|] eqn:Hrec;
          [|discriminate].
        injection E as _ _ <-.
        replace (Z.of_nat a + 1) with (Z.of_nat (S a)) in Hrec by lia.
        pose proof (retry_loop_nonempty _ _ _ _ _ _ _ Hrec ltac:(lia)) as Hne.
        destruct (IH _ _ _ _ _ _ Hrec) as [Hnar Hquiet].
        unfold warning.
        split; intros Htest; rewrite Htest.
        -- rewrite backoff_delay_before.
           cbn [app]. apply (narrated_retry _ _ _ a w e w1); auto.
        -- cbn [app]. cbn [quiet filter]. fold (quiet tr1).
           now rewrite (Hquiet Htest).
    + injection E as _ _ <-. split; intros _; [apply narrated_last | reflexivity].
  - injection E as _ _ <-. split; intros _; [apply narrated_none | reflexivity].
Qed.

(** X2: outside the tests ([NODE_ENV] is not ["test"]) each retry is
    announced by exactly one warning, right after the attempt that failed
    and right before the sleep, with the text
    ["Retry {i}/{retries} after {delay}ms{ (context)}: {cause}"]; nothing
    is written before the first attempt or after the last one.  In the
    tests nothing is written at all. *)
Theorem executeWithRetry_warnings (w : World) :
  exists out w' tr,
    executeWithRetry operation config context w = Some (out, w', tr)
    /\ (not_under_test = true -> Narrated operation config context 0 w tr)
    /\ (not_under_test = false -> quiet tr = tr).
Proof.
  destruct (executeWithRetry_run operation config context w)
    as [[[out w'] tr] [Hrun _]].
  exists out, w', tr. split; [exact Hrun|].
  unfold executeWithRetry in Hrun.
  exact (retry_loop_narrated _ 0%nat _ _ _ _ _ Hrun).
Qed.

End RetryEngineMore.

(** ** The dispatcher *)

(** X3: without retry keys in the options, [LLM.chat] calls the provider
    once when the call succeeds and twice when it fails, with one sleep of
    [1000 * Math.pow(2, 0)] between the two calls; when both calls fail it
    throws ["Failed after 1 retries ({class}:{model}): {cause}"], the cause
    being the message of the second error, and the context is always
    there. *)
Theorem LLM_chat_default_policy `{Runtime} {Callback World T : Type}
        (provider : Provider Callback World T) (modelId content : string)
        (options : ChatOptions) (streamCallback : option Callback) (w : World) :
  opt_retry options = {| opt_retries := None;
                         opt_retryInterval := None;
                         opt_retryBackoff := None |} ->
  let call := provider_chat provider modelId (chat_messages content options)
                            options streamCallback in
  let pause := Sleep (number_mul (number_of_Z 1000)
                                 (Math_pow (number_of_Z 2) (number_of_Z 0))) in
  exists tr,
    quiet tr
    = match call w with
      | (inr _, _) => [Call]
      | (inl _, w1) => [Call; pause; Call]
      end
    /\ LLM_chat provider modelId content options streamCallback w
       = Some
           match call w with
           | (inr v, w1) => (Returned v, w1, tr)
           | (inl _, w1) =>
               match call w1 with
               | (inr v, w2) => (Returned v, w2, tr)
               | (inl e, w2) =>
                   (Thrown (Some (mkError
                      ("Failed after 1 retries (" ++ constructor_name provider
                       ++ ":" ++ modelId ++ "): " ++ message e))), w2, tr)
               end
           end.
Proof.
  intros Hopts call pause.
  unfold LLM_chat, executeWithRetry. rewrite Hopts.
  fold call.
  change (getRetryConfig _) with DEFAULT_RETRY_CONFIG.
  change (Z.to_nat (maxAttempts DEFAULT_RETRY_CONFIG)) with 2%nat.
  cbn [retry_loop].
  change (0 <? maxAttempts DEFAULT_RETRY_CONFIG) with true.
  change (0 + 1 >=? maxAttempts DEFAULT_RETRY_CONFIG) with false.
  change (0 + 1 <? maxAttempts DEFAULT_RETRY_CONFIG) with true.
  change (0 + 1 + 1 >=? maxAttempts DEFAULT_RETRY_CONFIG) with true.
  cbv iota.
  destruct (call w) as [[e|v] w1]; [|exists [Call]; split; reflexivity].
  assert (Hctx : forall e2,
             exhausted DEFAULT_RETRY_CONFIG
                       (Some (constructor_name provider ++ ":" ++ modelId)) e2
             = mkError ("Failed after 1 retries (" ++ constructor_name provider
                        ++ ":" ++ modelId ++ "): " ++ message e2)).
  { intros e2. unfold exhausted, contextMsg, truthy_string, nullish.
    destruct (constructor_name provider ++ ":" ++ modelId) as [|c s] eqn:Hs.
    - exfalso. destruct (constructor_name provider); discriminate.
    - cbn [String.eqb negb]. f_equal. rewrite <- Hs.
      cbn. rewrite !append_assoc. reflexivity. }
  destruct (call w1) as [[e2|v] w2]; cbn [emit].
  - eexists; split; [|rewrite Hctx; reflexivity].
    unfold warning. destruct not_under_test; reflexivity.
  - eexists; split; [|reflexivity].
    unfold warning. destruct not_under_test; reflexivity.
Qed.

(** ** The response parser *)

Lemma search_lacks (c : ascii) (l : string) (r : regex) (s : string) :
  lacks c s = true -> search (Lit (String c l) :: r) s = None.
Proof.
  unfold lacks. induction s as [|d s IH]; intros Hs; [reflexivity|].
  simpl in Hs. apply andb_prop in Hs as [Hd Hs].
  cbn [search]. rewrite match_here_Lit. cbn [strip_prefix].
  apply negb_true_iff in Hd. rewrite Hd. now rewrite IH.
Qed.

(** X4: a text without a backtick, without [<] and without [[] is returned
    as it is but for the white space around it: the content is the trimmed
    text, there is no code block and no thinking. *)
Theorem parseResponse_plain_text (text : string) :
  lacks "`"%char text = true ->
  lacks "<"%char text = true ->
  lacks "["%char text = true ->
  parseResponse text
  = Some {| content := trim text;
            codeBlocks := [];
            thinking := None;
            toolCalls := Some [] |}.
Proof.
  intros Htick Hangle Hbracket.
  unfold parseResponse. cbn [extract_code_blocks replace_all].
  unfold codeBlockRegex, fence.
  rewrite (search_lacks _ _ _ _ Htick).
  unfold thinkingPatterns, thinkingTags, paired, remove_thinking, replace_first.
  cbn [map fst snd find_thinking fold_left].
  rewrite !(search_lacks _ _ _ _ Hangle), !(search_lacks _ _ _ _ Hbracket).
  reflexivity.
Qed.

Lemma trim_trimmed (s : string) : trimmed (trim s).
Proof.
  destruct (trim_spec s) as [l [r [_ [_ [_ [Hfirst Hlast]]]]]].
  split; assumption.
Qed.

(** What the blocks of a text are made of. *)
Lemma Fenced_blocks (s : string) (blocks : list CodeBlock) :
  Fenced s blocks ->
  forall b, In b blocks ->
    exists tag inner,
      all_chars is_word tag = true
      /\ closes_first inner fence
      /\ b = {| language := if (tag =? "")%string then "text" else tag;
                code := trim inner |}.
Proof.
  induction 1 as [s Hno | pre tag inner post blocks Hbefore Hword Hfirst _ IH];
    intros b Hb.
  - destruct Hb.
  - destruct Hb as [<- | Hb]; [|auto].
    exists tag, inner. auto.
Qed.

Lemma find_thinking_trim (patterns : list regex) (s t : string) :
  find_thinking patterns s = Some t -> exists inner, t = trim inner.
Proof.
  induction patterns as [|p patterns IH]; cbn [find_thinking]; [discriminate|].
  destruct (search p s) as [[pre m]|]; [|exact IH].
  intros E; injection E as <-. eauto.
Qed.

(** X5: what the parser returns is trimmed: the content, the code of every
    block and the thinking neither start nor end with white space. *)
Theorem parseResponse_trimmed (text : string) :
  exists r,
    parseResponse text = Some r
    /\ trimmed (content r)
    /\ (forall b, In b (codeBlocks r) -> trimmed (code b))
    /\ (forall t, thinking r = Some t -> trimmed t).
Proof.
  destruct (parseResponse_run text) as [blocks [stripped [Hb [_ Hrun]]]].
  eexists; split; [exact Hrun|]. cbn [content codeBlocks thinking].
  split; [apply trim_trimmed|]. split.
  - intros b Hin.
    destruct (Fenced_blocks _ _ Hb b Hin) as [tag [inner [_ [_ ->]]]].
    apply trim_trimmed.
  - intros t Ht. apply find_thinking_trim in Ht as [inner ->].
    apply trim_trimmed.
Qed.

(** X6: the language of a code block is never empty and is made of word
    characters: it is the tag of the block, or ["text"]. *)
Theorem parseResponse_language (text : string) :
  exists r,
    parseResponse text = Some r
    /\ forall b, In b (codeBlocks r) ->
         language b <> "" /\ all_chars is_word (language b) = true.
Proof.
  destruct (parseResponse_run text) as [blocks [stripped [Hb [_ Hrun]]]].
  eexists; split; [exact Hrun|]. cbn [codeBlocks].
  intros b Hin.
  destruct (Fenced_blocks _ _ Hb b Hin) as [tag [inner [Hword [_ ->]]]].
  cbn [language]. destruct tag as [|c tag]; cbn [String.eqb].
  - split; [discriminate | reflexivity].
  - split; [discriminate | exact Hword].
Qed.

Lemma closes_first_lacks (inner x : string) :
  x <> "" -> closes_first inner x -> forall a b, inner <> a ++ x ++ b.
Proof.
  intros Hx Hfirst a b ->.
  specialize (Hfirst a (b ++ x)).
  rewrite !append_assoc in Hfirst. specialize (Hfirst eq_refl).
  destruct b; simpl in Hfirst; [contradiction | discriminate].
Qed.

Lemma trim_part (s : string) : exists l r, s = l ++ trim s ++ r.
Proof.
  destruct (trim_spec s) as [l [r [E _]]]. eauto.
Qed.

(** X7: the code of a code block does not contain the marker of three
    backticks. *)
Theorem parseResponse_code_without_marker (text : string) :
  exists r,
    parseResponse text = Some r
    /\ forall b, In b (codeBlocks r) ->
         forall before after, code b <> before ++ fence ++ after.
Proof.
  destruct (parseResponse_run text) as [blocks [stripped [Hb [_ Hrun]]]].
  eexists; split; [exact Hrun|]. cbn [codeBlocks].
  intros b Hin before after Hcode.
  destruct (Fenced_blocks _ _ Hb b Hin) as [tag [inner [_ [Hfirst ->]]]].
  cbn [code] in Hcode.
  destruct (trim_part inner) as [l [r E]].
  apply (closes_first_lacks inner fence ltac:(discriminate) Hfirst
           (l ++ before) (after ++ r)).
  rewrite E at 1. rewrite Hcode. now rewrite !append_assoc.
Qed.

Lemma trim_length (s : string) : (String.length (trim s) <= String.length s)%nat.
Proof.
  destruct (trim_part s) as [l [r E]].
  rewrite E at 2. rewrite !length_append. lia.
Qed.

Lemma Stripped_length (s r : string) :
  Stripped s r -> (String.length r <= String.length s)%nat.
Proof.
  induction 1 as [s Hno | pre tag inner post r _ _ _ _ IH]; [lia|].
  pose proof (fenced_block_length tag inner post).
  rewrite !length_append in *. lia.
Qed.

Lemma Removed_length (o c s r : string) (inner : option string) :
  Removed o c s inner r -> (String.length r <= String.length s)%nat.
Proof.
  intros [s' Hno | pre inner' post _ _]; [lia|].
  unfold region. rewrite !length_append. lia.
Qed.

Lemma Cleaned_length (tags : list (string * string)) (s r : string) :
  Cleaned tags s r -> (String.length r <= String.length s)%nat.
Proof.
  induction 1 as [s | o c tags s inner s' r Hr _ IH]; [lia|].
  apply Removed_length in Hr. lia.
Qed.

(** X8: the content is never longer than the text. *)
Theorem parseResponse_content_length (text : string) :
  exists r,
    parseResponse text = Some r
    /\ (String.length (content r) <= String.length text)%nat.
Proof.
  destruct (parseResponse_run text) as [blocks [stripped [_ [Hs Hrun]]]].
  eexists; split; [exact Hrun|]. cbn [content].
  pose proof (trim_length (remove_thinking thinkingPatterns stripped)).
  pose proof (Cleaned_length _ _ _ (remove_thinking_Cleaned thinkingTags stripped)).
  pose proof (Stripped_length _ _ Hs).
  unfold thinkingPatterns in *. lia.
Qed.

(** ** Streams *)

Lemma set_raw_same (st : Stream) : set_raw (rawResponse st) st = st.
Proof. destruct st; reflexivity. Qed.

Lemma split_on_append (sep : ascii) (a b : string) :
  split_on sep (a ++ String sep b) = (split_on sep a ++ split_on sep b)%list.
Proof.
  induction a as [|c a IH]; cbn [append split_on].
  - rewrite Ascii.eqb_refl.
    destruct (split_on_cons sep b) as [w [ws ->]]. reflexivity.
  - rewrite IH. destruct (split_on_cons sep a) as [w [ws ->]].
    cbn [app]. destruct (Ascii.eqb c sep); reflexivity.
Qed.

Section LineStreams.

Context `{Json}.
Variable handle : LineHandler.
Variable select : string -> list string.
Hypothesis handle_step : forall st line, LineStep st (handle st line).

Lemma fold_Coherent (emitted : list Emitted) : forall st,
  Coherent st ->
  Coherent (fold_left (on_emitted (fun st chunk => on_lines handle st (select chunk)))
                      emitted st).
Proof.
  induction emitted as [|[chunk|e] emitted IH]; intros st Hst; cbn [fold_left on_emitted].
  - exact Hst.
  - apply IH. now apply on_lines_Coherent.
  - apply IH. now apply Coherent_reject.
Qed.

Lemma lines_stream_Coherent (response : JsError + list Emitted) :
  Coherent (streamChat (fun st chunk => on_lines handle st (select chunk)) response).
Proof.
  destruct response as [e|emitted]; cbn [streamChat].
  - apply Coherent_reject, Coherent_start.
  - apply fold_Coherent, Coherent_start.
Qed.

(** The completion of a stream of lines carries the text of the deltas
    before it, and ends the chunk it comes with. *)
Lemma lines_stream_completion (response : JsError + list Emitted)
      (pre post : list StreamEvent) (r : Resolution) :
  log (streamChat (fun st chunk => on_lines handle st (select chunk)) response)
  = (pre ++ Completion r :: post)%list ->
  fullText r = text_of pre
  /\ forallb is_delta pre = true
  /\ parsed r = parseResponse (text_of pre)
  /\ (forall emitted chunk,
         response = inr (emitted ++ [Data chunk])%list ->
         settled (streamChat (fun st chunk => on_lines handle st (select chunk))
                             (inr emitted)) = false ->
         post = []).
Proof.
  intros Hlog.
  pose proof (lines_stream_Coherent response) as Hco.
  destruct (coherent_completion _ Hco pre r post Hlog) as [Htext Hpre].
  split; [exact Htext|]. split; [exact Hpre|].
  split; [unfold parsed; now rewrite Htext|].
  intros emitted chunk -> Hpending.
  pose proof (lines_stream_Coherent (inr emitted)) as Hco'.
  cbn [streamChat] in Hlog, Hpending, Hco'.
  rewrite fold_left_app in Hlog. cbn [fold_left on_emitted] in Hlog.
  match type of Hlog with
  | log (on_lines handle ?st0 _) = _ => set (st := st0) in *
  end.
  destruct (settled (on_lines handle st (select chunk))) eqn:Hs.
  - destruct (on_lines_returns handle handle_step _ _ Hco' Hpending Hs)
      as [l [r' [Hl Hall]]].
    rewrite Hl in Hlog.
    apply snoc_decompose in Hlog as [[-> _] | [post' [_ E]]]; [reflexivity|].
    exfalso. exact (no_completion_in_deltas _ _ _ _ Hall E).
  - exfalso.
    pose proof (on_lines_Coherent handle handle_step (select chunk) _ Hco') as Hco''.
    pose proof (coherent_pending _ Hco'' Hs) as Hall.
    exact (no_completion_in_deltas _ _ _ _ Hall Hlog).
Qed.








(** The lines at which the handler returns. *)
Variable terminal : string -> bool.
Hypothesis handle_returns :
  forall st line st', handle st line = (st', true) -> terminal line = true.

Lemma on_lines_pending (lines : list string) : forall st,
  settled st = false ->
  (forall line, In line lines -> terminal line = false) ->
  settled (on_lines handle st lines) = false
  /\ (forallb is_delta (log st) = true ->
      forallb is_delta (log (on_lines handle st lines)) = true).
Proof.
  induction lines as [|line lines IH]; intros st Hs Hno; cbn [on_lines]; [auto|].
  pose proof (handle_step st line) as Hstep.
  destruct (handle st line) as [st' [|]] eqn:Hh.
  - apply handle_returns in Hh. rewrite (Hno line (or_introl eq_refl)) in Hh.
    discriminate.
  - destruct (IH st' (LineStep_pending _ _ Hs Hstep)
                 (fun l Hl => Hno l (or_intror Hl))) as [Hs' Hlog].
    split; [exact Hs'|]. intros Hall. apply Hlog.
    inversion Hstep; subst; auto.
    cbn [deliver log set_raw]. now rewrite forallb_app, Hall.
Qed.

Lemma on_lines_append (l1 l2 : list string) : forall st,
  (forall line, In line l1 -> terminal line = false) ->
  on_lines handle st (l1 ++ l2) = on_lines handle (on_lines handle st l1) l2.
Proof.
  induction l1 as [|line l1 IH]; intros st Hno; cbn [app on_lines]; [reflexivity|].
  destruct (handle st line) as [st' [|]] eqn:Hh.
  - apply handle_returns in Hh. rewrite (Hno line (or_introl eq_refl)) in Hh.
    discriminate.
  - apply IH. intros l Hl. apply Hno. now right.
Qed.

End LineStreams.

Section MoreHandlers.

Context `{Json}.

Lemma LineStep_resolve (st : Stream) : LineStep st (resolve st, true).
Proof.
  rewrite <- (set_raw_same st) at 2. apply line_stop.
Qed.

Lemma groq_line_step (st : Stream) (line : string) :
  LineStep st (groq_line st line).
Proof.
  unfold groq_line.
  destruct (strip_prefix "data: " line) as [data|]; [|constructor].
  destruct (data =? "[DONE]")%string; [apply LineStep_resolve|].
  destruct (JSON_parse data) as [parsed|]; [|constructor].
  destruct (member parsed "choices") as [[]|];
    try (destruct parsed; constructor);
    match goal with
    | |- context [truthy (Some ?c)] => destruct (truthy (Some c))
    end; destruct parsed; constructor.
Qed.

Lemma openrouter_line_step (st : Stream) (line : string) :
  LineStep st (openrouter_line st line).
Proof.
  unfold openrouter_line.
  destruct (strip_prefix "data: " line) as [data|]; [|constructor].
  destruct (data =? "[DONE]")%string; [apply LineStep_resolve|].
  destruct (JSON_parse data) as [parsed|]; [|constructor].
  destruct (member parsed "choices") as [[]|];
    try (destruct parsed; constructor);
    cbv zeta;
    match goal with
    | |- context [if truthy (Some ?c) then _ else _] => destruct (truthy (Some c))
    end; destruct parsed; constructor.
Qed.

Lemma google_line_step (st : Stream) (line : string) :
  LineStep st (google_line st line).
Proof.
  unfold google_line.
  destruct (strip_prefix "data: " (trim line)) as [d|]; [|constructor].
  destruct (JSON_parse (slice_from 6 line)) as [parsed|]; [|constructor].
  cbv zeta.
  match goal with
  | |- context [if truthy (Some ?c) then deliver _ _ else _] =>
      destruct (truthy (Some c))
  end;
    match goal with
    | |- context [if truthy ?f then (resolve _, true) else _] => destruct (truthy f)
    end; destruct parsed; constructor.
Qed.

Lemma anthropic_line_returns (st : Stream) (line : string) (st' : Stream) :
  anthropic_line st line = (st', true) -> anthropic_terminal line = true.
Proof.
  unfold anthropic_line, anthropic_terminal.
  destruct (strip_prefix "data: " line) as [data|]; [|discriminate].
  destruct (JSON_parse data) as [parsed|]; [|discriminate].
  destruct (is_string (member parsed "type") "content_block_delta"
            && truthy (member_opt (member parsed "delta") "text")).
  - destruct (member_opt (member parsed "delta") "text");
      destruct parsed; discriminate.
  - destruct (is_string (member parsed "type") "message_stop");
      [reflexivity | destruct parsed; discriminate].
Qed.

Lemma ollama_line_returns (st : Stream) (line : string) (st' : Stream) :
  ollama_line st line = (st', true) -> ollama_terminal line = true.
Proof.
  unfold ollama_line, ollama_terminal.
  destruct (JSON_parse line) as [parsed|]; [|discriminate].
  destruct (truthy (member parsed "done")); [reflexivity|].
  destruct parsed; discriminate.
Qed.

Lemma groq_line_returns (st : Stream) (line : string) (st' : Stream) :
  groq_line st line = (st', true) -> groq_terminal line = true.
Proof.
  unfold groq_line, groq_terminal.
  destruct (strip_prefix "data: " line) as [data|]; [|discriminate].
  destruct (data =? "[DONE]")%string; [reflexivity|].
  destruct (JSON_parse data) as [parsed|]; [|discriminate].
  destruct (member parsed "choices") as [[]|];
    try (destruct parsed; discriminate);
    match goal with
    | |- context [truthy (Some ?c)] => destruct (truthy (Some c))
    end; destruct parsed; discriminate.
Qed.

(** X9: in a stream of the Groq, of the OpenRouter or of the Google
    handler, the deltas delivered before the completion, one after the
    other, are the text that is parsed into the result; nothing but deltas
    comes before the completion; and the handler returns at the record
    that completes, so nothing follows a completion that comes with the
    last chunk. *)
Theorem sentinel_stream_completion (on_data : Stream -> string -> Stream)
        (response : JsError + list Emitted)
        (pre post : list StreamEvent) (r : Resolution) :
  In on_data sentinel_handlers ->
  log (streamChat on_data response) = (pre ++ Completion r :: post)%list ->
  fullText r = text_of pre
  /\ forallb is_delta pre = true
  /\ parsed r = parseResponse (text_of pre)
  /\ (forall emitted chunk,
         response = inr (emitted ++ [Data chunk])%list ->
         settled (streamChat on_data (inr emitted)) = false ->
         post = []).
Proof.
  intros [<- | [<- | [<- | []]]].
  - apply (lines_stream_completion groq_line (split_on "010"%char) groq_line_step).
  - apply (lines_stream_completion openrouter_line (split_on "010"%char)
             openrouter_line_step).
  - apply (lines_stream_completion google_line (split_on "010"%char)
             google_line_step).
Qed.

(** X10: a promise is settled at a terminal record or at an error only:
    while the transport emits chunks without a terminal line and no error,
    the promise of the Anthropic, of the Ollama and of the Groq handler
    stays pending, whatever was delivered; the end of the stream settles
    nothing. *)
Theorem stream_pending_without_terminal
        (on_data : Stream -> string -> Stream) (terminal : string -> bool)
        (emitted : list Emitted) :
  In (on_data, terminal) terminal_lines ->
  forallb is_data emitted = true ->
  (forall e line, In e emitted -> In line (lines_of e) -> terminal line = false) ->
  settled (streamChat on_data (inr emitted)) = false
  /\ forallb is_delta (log (streamChat on_data (inr emitted))) = true.
Proof.
  intros Hin Hdata Hno.
  assert (Hgen : exists handle select,
             (forall st line, LineStep st (handle st line))
             /\ (forall st line st', handle st line = (st', true) ->
                                     terminal line = true)
             /\ (forall chunk line, In line (select chunk) ->
                                    In line (split_on "010"%char chunk))
             /\ on_data = fun st chunk => on_lines handle st (select chunk)).
  { destruct Hin as [E | [E | [E | []]]]; injection E as <- <-.
    - exists anthropic_line, (split_on "010"%char).
      split; [apply anthropic_line_step|].
      split; [apply anthropic_line_returns|]. auto.
    - exists ollama_line, (fun chunk => filter keep_line (split_on "010"%char chunk)).
      split; [apply ollama_line_step|].
      split; [apply ollama_line_returns|].
      split; [|reflexivity].
      intros chunk line Hl. apply filter_In in Hl. tauto.
    - exists groq_line, (split_on "010"%char).
      split; [apply groq_line_step|].
      split; [apply groq_line_returns|]. auto. }
  destruct Hgen as [handle [select [Hstep [Hret [Hsub ->]]]]].
  cbn [streamChat].
  assert (Hstart : settled start = false /\ forallb is_delta (log start) = true)
    by (split; reflexivity).
  revert Hstart. generalize start.
  induction emitted as [|[chunk|e] emitted IH]; intros st [Hs Hl];
    cbn [fold_left on_emitted]; [auto | | discriminate].
  cbn [forallb is_data andb] in Hdata.
  apply IH; [exact Hdata | |].
  - intros e line He. apply Hno. now right.
  - destruct (on_lines_pending handle Hstep terminal Hret (select chunk) st Hs)
      as [Hs' Hl'].
    + intros line Hline. apply (Hno (Data chunk) line); [now left|].
      cbn [lines_of]. now apply Hsub.
    + auto.
Qed.


(** X12: a chunk may be cut at a line feed: when the lines before the cut
    have no terminal line, the Anthropic, the Ollama and the Groq handler
    do to the stream with the two pieces, one after the other, what they
    do with the whole chunk. *)
Theorem chunk_cut_at_line_feed
        (on_data : Stream -> string -> Stream) (terminal : string -> bool)
        (st : Stream) (a b : string) :
  In (on_data, terminal) terminal_lines ->
  (forall line, In line (split_on "010"%char a) -> terminal line = false) ->
  on_data st (a ++ nl ++ b) = on_data (on_data st a) b.
Proof.
  intros Hin Hno.
  change (a ++ nl ++ b) with (a ++ String "010"%char b).
  destruct Hin as [E | [E | [E | []]]]; injection E as <- <-.
  - unfold anthropic_data. rewrite split_on_append.
    apply on_lines_append with (terminal := anthropic_terminal); auto.
    apply anthropic_line_returns.
  - unfold ollama_data. rewrite split_on_append, filter_app.
    apply on_lines_append with (terminal := ollama_terminal).
    + apply ollama_line_returns.
    + intros line Hl. apply filter_In in Hl. apply Hno. tauto.
  - unfold groq_data. rewrite split_on_append.
    apply on_lines_append with (terminal := groq_terminal); auto.
    apply groq_line_returns.
Qed.

End MoreHandlers.

(** ** The providers *)

(** X13: for the HuggingFace provider the two modes agree: on every
    outcome of the request, [chat] without a callback resolves exactly
    when the simulated stream resolves, with the same raw body and the same
    text given to the parser, and the chunks of the stream, one after the
    other, are that text; when [chat] is rejected the stream does not
    resolve, and [chat] never stays pending. *)
Theorem hf_modes_agree (response : JsError + json) :
  match hf_chat response with
  | Fulfilled r =>
      hf_streamChat response = (simulateStreaming (fullText r), Fulfilled r)
      /\ String.concat "" (simulateStreaming (fullText r)) = fullText r
  | RejectedWith _ =>
      forall r, snd (hf_streamChat response) <> Fulfilled r
  | NeverSettled => False
  end.
Proof.
  unfold hf_chat, hf_streamChat.
  destruct response as [e|data]; [intros r; discriminate|].
  destruct (hf_generated_text data) as [r|generatedText]; [intros r'; discriminate|].
  destruct (or_empty generatedText); try (intros r; discriminate).
  cbn [fullText]. split; [reflexivity|].
  unfold simulateStreaming.
  rewrite simulate_from_concat by reflexivity.
  apply (concat_split_on " "%char).
Qed.


(** X15: what [LLM.chat] sends becomes, for HuggingFace, the prompt
    ["System: {system}\n\n"] when [options.system] is not empty, then
    ["Human: {text}\n\n"], then ["Assistant: "]. *)
Theorem messagesToPrompt_request `{Runtime} (content : string)
        (options : ChatOptions) :
  messagesToPrompt (chat_messages content options)
  = (if truthy_string (opt_system options)
     then "System: " ++ nullish (opt_system options) "" ++ nl ++ nl
     else "")
    ++ "Human: " ++ content ++ nl ++ nl ++ "Assistant: ".
Proof.
  unfold chat_messages.
  destruct (truthy_string (opt_system options)).
  - unfold messagesToPrompt. cbn.
    repeat (rewrite append_assoc; cbn). reflexivity.
  - unfold messagesToPrompt. cbn.
    repeat (rewrite append_assoc; cbn). reflexivity.
Qed.

Lemma push_contents (messages : list ChatMessage) : forall contents,
  fold_left
    (fun contents message =>
       if is_system message then contents
       else (contents ++ [to_content message])%list)
    messages contents
  = (contents
     ++ map to_content (filter (fun m => negb (is_system m)) messages))%list.
Proof.
  induction messages as [|m messages IH]; intros contents; cbn [fold_left filter].
  - now rewrite app_nil_r.
  - rewrite IH. destruct (is_system m); cbn [negb map]; [reflexivity|].
    now rewrite <- app_assoc.
Qed.

(** X16: [convertMessages] gives one content for each message that is not
    a system message, in order, an assistant becoming [model]; the text of
    the first system message goes, followed by two line feeds, in front of
    the text of the first content when that one is from the user, and it
    is dropped when the first content is from the model or when there is
    no content; a second system message is dropped. *)
Theorem convertMessages_spec (messages : list ChatMessage) :
  convertMessages messages
  = match find is_system messages,
          filter (fun m => negb (is_system m)) messages with
    | Some systemMessage, first :: others =>
        match role first with
        | assistant => map to_content (first :: others)
        | _ =>
            {| g_role := g_user;
               g_text := msg_content systemMessage ++ nl ++ nl ++ msg_content first |}
            :: map to_content others
        end
    | _, conversation => map to_content conversation
    end.
Proof.
  unfold convertMessages. rewrite push_contents. cbn [app].
  destruct (find is_system messages) as [systemMessage|];
    destruct (filter (fun m => negb (is_system m)) messages) as [|first others];
    try reflexivity.
  destruct first as [[] text]; reflexivity.
Qed.

(** X17: the payload of the Anthropic provider never has a system message
    among its messages: they are the messages that are not system
    messages, in order, and [system] is the content of the first system
    message.  So what [LLM.chat] sends becomes a payload whose [system] is
    [options.system] when it is not empty and is absent otherwise, and
    whose messages are the one user message with the text. *)
Theorem anthropic_payload_request `{Runtime} (number_truthy : number -> bool)
        {Callback : Type} (modelId content : string)
        (messages : list ChatMessage) (options : ChatOptions)
        (streamCallback : option Callback) :
  (forall m,
      In m (p_messages (anthropic_payload number_truthy modelId messages
                                          options streamCallback)) ->
      role m <> system)
  /\ p_system (anthropic_payload number_truthy modelId
                 (chat_messages content options) options streamCallback)
     = (if truthy_string (opt_system options) then opt_system options else None)
  /\ p_messages (anthropic_payload number_truthy modelId
                   (chat_messages content options) options streamCallback)
     = [ {| role := user; msg_content := content |} ].
Proof.
  split.
  - cbn [anthropic_payload p_messages]. intros m Hm.
    apply in_map_iff in Hm as [m0 [<- Hm0]].
    apply filter_In in Hm0 as [_ Hm0]. cbn [role].
    unfold is_system in Hm0. destruct (role m0); [discriminate ..|].
    discriminate.
  - unfold chat_messages, truthy_string, nullish.
    destruct (opt_system options) as [s|]; [destruct (s =? "")%string|];
      cbn; split; reflexivity.
Qed.

(** ** More on the streams and on the dispatcher *)

Lemma on_lines_skip `{Json} (handle : LineHandler) (inert : string -> bool)
      (lines : list string) :
  (forall st line, inert line = true -> handle st line = (st, false)) ->
  forall st,
    on_lines handle st lines
    = on_lines handle st (filter (fun line => negb (inert line)) lines).
Proof.
  intros Hinert.
  induction lines as [|line lines IH]; intros st; cbn [on_lines filter];
    [reflexivity|].
  destruct (inert line) eqn:Hl; cbn [negb on_lines].
  - rewrite (Hinert st line Hl). apply IH.
  - destruct (handle st line) as [st' [|]]; [reflexivity | apply IH].
Qed.

(** X18: a line that a handler cannot decode (it does not start with
    ["data: "], or [JSON.parse] throws on it) is skipped: the stream, its
    accumulated text and its log are what they are without the line, for
    the Anthropic, Ollama, Groq and OpenRouter handlers. *)
Theorem undecodable_lines_are_skipped `{Json}
        (handle : LineHandler) (inert : string -> bool)
        (st : Stream) (lines : list string) :
  In (handle, inert) inert_lines ->
  on_lines handle st lines
  = on_lines handle st (filter (fun line => negb (inert line)) lines).
Proof.
  intros Hin. apply on_lines_skip.
  clear st. intros st line Hl.
  destruct Hin as [E | [E | [E | [E | []]]]]; injection E as <- <-.
  - unfold anthropic_inert in Hl. unfold anthropic_line.
    destruct (strip_prefix "data: " line) as [data|]; [|reflexivity].
    destruct (JSON_parse data); [discriminate | reflexivity].
  - unfold ollama_inert in Hl. unfold ollama_line.
    destruct (JSON_parse line); [discriminate | reflexivity].
  - unfold groq_inert in Hl. unfold groq_line.
    destruct (strip_prefix "data: " line) as [data|]; [|reflexivity].
    destruct (data =? "[DONE]")%string; [discriminate|].
    destruct (JSON_parse data); [discriminate | reflexivity].
  - unfold groq_inert in Hl. unfold openrouter_line.
    destruct (strip_prefix "data: " line) as [data|]; [|reflexivity].
    destruct (data =? "[DONE]")%string; [discriminate|].
    destruct (JSON_parse data); [discriminate | reflexivity].
Qed.

(** X19: a number of retries of zero in the options is kept ([??] and not
    [||]): [LLM.chat] calls the provider exactly once, without any sleep or
    warning, and when the call fails it throws
    ["Failed after 0 retries ({class}:{model}): {cause}"]. *)
Theorem LLM_chat_zero_retries `{Runtime} {Callback World T : Type}
        (provider : Provider Callback World T) (modelId content : string)
        (options : ChatOptions) (streamCallback : option Callback) (w : World) :
  opt_retries (opt_retry options) = Some 0 ->
  LLM_chat provider modelId content options streamCallback w
  = Some
      match provider_chat provider modelId (chat_messages content options)
                          options streamCallback w with
      | (inr v, w1) => (Returned v, w1, [Call])
      | (inl e, w1) =>
          (Thrown (Some (mkError
             ("Failed after 0 retries (" ++ constructor_name provider
              ++ ":" ++ modelId ++ "): " ++ message e))), w1, [Call])
      end.
Proof.
  intros Hzero.
  unfold LLM_chat, executeWithRetry, getRetryConfig, maxAttempts.
  cbn [retries]. rewrite Hzero. cbn [nullish Z.add Z.to_nat Pos.to_nat
                                      Pos.iter_op Nat.add retry_loop].
  unfold maxAttempts. cbn [retries nullish].
  change (0 <? 0 + 1) with true. change (0 + 1 >=? 0 + 1) with true. cbv iota.
  destruct (provider_chat provider modelId (chat_messages content options)
                          options streamCallback w) as [[e|v] w1];
    [|reflexivity].
  do 3 f_equal.
  unfold exhausted, contextMsg, truthy_string, nullish. cbn [retries].
  destruct (constructor_name provider ++ ":" ++ modelId) as [|c s] eqn:Hs.
  - exfalso. destruct (constructor_name provider); discriminate.
  - cbn [String.eqb negb]. do 2 f_equal. rewrite <- Hs.
    cbn. rewrite !append_assoc. reflexivity.
Qed.

(** ** Instances of the further properties *)

Lemma executeWithRetry_negative_retries_witness :
  executeWithRetry (H := integer_runtime (Some "test"))
    (always_fails "x") (policy (Some "test") (-1) 10 2) None 0%nat
  = Some (Thrown None, 0%nat, []).
Proof.
  apply (executeWithRetry_negative_retries (H := integer_runtime (Some "test"))).
  simpl. lia.
Defined.

Lemma LLM_chat_default_policy_witness :
  exists tr,
    quiet tr = [Call; sleep None 1000; Call]
    /\ LLM_chat (scripted_provider None always_down) "m" "Hi"
                (options_with_system None None) None 0%nat
       = Some (Thrown (Some (mkError
                 "Failed after 1 retries (ScriptedProvider:m): down")),
               2%nat, tr).
Proof.
  exact (LLM_chat_default_policy (H := integer_runtime None)
           (scripted_provider None always_down) "m" "Hi"
           (options_with_system None None) None 0%nat eq_refl).
Defined.

Lemma LLM_chat_zero_retries_witness :
  LLM_chat (scripted_provider None always_down) "m" "Hi"
           (options_with_retries None 0) None 0%nat
  = Some (Thrown (Some (mkError
            "Failed after 0 retries (ScriptedProvider:m): down")),
          1%nat, [Call]).
Proof.
  exact (LLM_chat_zero_retries (H := integer_runtime None)
           (scripted_provider None always_down) "m" "Hi"
           (options_with_retries None 0) None 0%nat eq_refl).
Defined.

Lemma parseResponse_plain_text_witness :
  parseResponse "  Hello, world. "
  = Some {| content := trim "  Hello, world. ";
            codeBlocks := [];
            thinking := None;
            toolCalls := Some [] |}.
Proof.
  apply parseResponse_plain_text; reflexivity.
Defined.

Example groq_chunks :
  log (streamChat (groq_data (H := sentinel_json)) (inr chunked_stream))
  = [TextDelta (JString "Hel"); TextDelta (JString "lo");
     Completion {| raw := choice_delta "lo"; fullText := "Hello" |}].
Proof. reflexivity. Qed.

Lemma sentinel_stream_completion_witness :
  fullText {| raw := choice_delta "lo"; fullText := "Hello" |}
  = text_of (H := sentinel_json)
            [TextDelta (JString "Hel"); TextDelta (JString "lo")]
  /\ forallb is_delta [TextDelta (JString "Hel"); TextDelta (JString "lo")] = true
  /\ parsed {| raw := choice_delta "lo"; fullText := "Hello" |}
     = parseResponse
         (text_of (H := sentinel_json)
                  [TextDelta (JString "Hel"); TextDelta (JString "lo")])
  /\ (forall emitted chunk,
         @inr JsError _ chunked_stream = inr (emitted ++ [Data chunk])%list ->
         settled (streamChat (groq_data (H := sentinel_json))
                             (@inr JsError _ emitted)) = false ->
         @nil StreamEvent = []).
Proof.
  apply (sentinel_stream_completion (H := sentinel_json)
           (groq_data (H := sentinel_json)) (inr chunked_stream)
           [TextDelta (JString "Hel"); TextDelta (JString "lo")] []
           {| raw := choice_delta "lo"; fullText := "Hello" |}).
  - left. reflexivity.
  - reflexivity.
Defined.

Lemma stream_pending_without_terminal_witness :
  settled (streamChat (anthropic_data (H := example_json))
                      (inr unfinished_stream)) = false
  /\ forallb is_delta
       (log (streamChat (anthropic_data (H := example_json))
                        (inr unfinished_stream))) = true.
Proof.
  apply (stream_pending_without_terminal (H := example_json)
           (anthropic_data (H := example_json))
           (anthropic_terminal (H := example_json)) unfinished_stream).
  - left. reflexivity.
  - reflexivity.
  - intros e line [<- | [<- | []]] Hl; simpl in Hl;
      destruct Hl as [<- | []]; reflexivity.
Defined.


Lemma chunk_cut_at_line_feed_witness :
  anthropic_data (H := example_json) start
                 ("data: TEXT Hel" ++ nl ++ "data: STOP")
  = anthropic_data (H := example_json)
      (anthropic_data (H := example_json) start "data: TEXT Hel") "data: STOP".
Proof.
  apply (chunk_cut_at_line_feed (H := example_json)
           (anthropic_data (H := example_json))
           (anthropic_terminal (H := example_json))).
  - left. reflexivity.
  - intros line Hl. simpl in Hl. destruct Hl as [<- | []]. reflexivity.
Defined.

Lemma undecodable_lines_are_skipped_witness :
  on_lines (anthropic_line (H := example_json)) start
           ["event: ping"; "data: TEXT a"; "data: {"]
  = on_lines (anthropic_line (H := example_json)) start
      (filter (fun line => negb (anthropic_inert (H := example_json) line))
              ["event: ping"; "data: TEXT a"; "data: {"]).
Proof.
  apply (undecodable_lines_are_skipped (H := example_json)).
  left. reflexivity.
Defined.

Example hf_array_body :
  hf_streamChat (inr (JArray [JObject [("generated_text", JString "a  b")]]))
  = (["a "; " "; "b"],
     Fulfilled {| raw := JArray [JObject [("generated_text", JString "a  b")]];
                  fullText := "a  b" |}).
Proof. reflexivity. Qed.

Example hf_number_body :
  hf_streamChat (inr (JObject [("generated_text", JNumber 5)])) = ([], NeverSettled)
  /\ hf_chat (inr (JObject [("generated_text", JNumber 5)]))
     = RejectedWith (Wrapped "HuggingFace chat failed" TypeError).
Proof. split; reflexivity. Qed.

Example google_system_dropped :
  convertMessages [ {| role := system; msg_content := "Be brief" |};
                    {| role := assistant; msg_content := "Hello" |};
                    {| role := user; msg_content := "Hi" |} ]
  = [ {| g_role := g_model; g_text := "Hello" |};
      {| g_role := g_user; g_text := "Hi" |} ].
Proof. reflexivity. Qed.
